(** * building_blockchain: the ledger of [blockchain.py]

    A shallow embedding of the [Blockchain] class (chain, pending
    transactions, proof of work, chain validation and the longest-chain
    consensus step) together with the two library functions its results
    depend on: [hashlib.sha256] and [json.dumps(..., sort_keys=True)]. *)

From Stdlib Require Import ZArith List String Ascii Strings.Byte DecimalString DecimalPos DecimalZ Permutation.
From stdpp Require Import base tactics option list gmap strings.

Local Open Scope Z_scope.

(** ** SHA-256 (FIPS 180-4), as computed by [hashlib.sha256(...).hexdigest()]

    Words are 32-bit integers kept in [Z]; every addition wraps modulo 2^32. *)
Module SHA256.

Definition wrap (x : Z) : Z := Z.land x 0xffffffff.

Definition add32 (x y : Z) : Z := wrap (x + y).

Definition rotr (n x : Z) : Z :=
  Z.lor (Z.shiftr x n) (wrap (Z.shiftl x (32 - n))).

Definition Ch (x y z : Z) : Z :=
  Z.lxor (Z.land x y) (Z.land (wrap (Z.lnot x)) z).

Definition Maj (x y z : Z) : Z :=
  Z.lxor (Z.lxor (Z.land x y) (Z.land x z)) (Z.land y z).

Definition Sigma0 (x : Z) : Z := Z.lxor (Z.lxor (rotr 2 x) (rotr 13 x)) (rotr 22 x).
Definition Sigma1 (x : Z) : Z := Z.lxor (Z.lxor (rotr 6 x) (rotr 11 x)) (rotr 25 x).
Definition sigma0 (x : Z) : Z := Z.lxor (Z.lxor (rotr 7 x) (rotr 18 x)) (Z.shiftr x 3).
Definition sigma1 (x : Z) : Z := Z.lxor (Z.lxor (rotr 17 x) (rotr 19 x)) (Z.shiftr x 10).

(** The round constants: the first 32 bits of the fractional parts of the
    cube roots of the first 64 primes, read from their hexadecimal text. *)
Definition hex_value (c : ascii) : Z :=
  let n := Z.of_N (N_of_ascii c) in
  if (48 <=? n) && (n <=? 57) then n - 48 else n - 87.

Fixpoint read_hex_words (s : string) (acc : Z) : list Z :=
  match s with
  | EmptyString => [acc]
  | String c s' =>
      if Ascii.eqb c " " then acc :: read_hex_words s' 0
      else read_hex_words s' (16 * acc + hex_value c)
  end.

Definition K : list Z :=
  Eval vm_compute in
    read_hex_words
      "428a2f98 71374491 b5c0fbcf e9b5dba5 3956c25b 59f111f1 923f82a4 ab1c5ed5 d807aa98 12835b01 243185be 550c7dc3 72be5d74 80deb1fe 9bdc06a7 c19bf174 e49b69c1 efbe4786 0fc19dc6 240ca1cc 2de92c6f 4a7484aa 5cb0a9dc 76f988da 983e5152 a831c66d b00327c8 bf597fc7 c6e00bf3 d5a79147 06ca6351 14292967 27b70a85 2e1b2138 4d2c6dfc 53380d13 650a7354 766a0abb 81c2c92e 92722c85 a2bfe8a1 a81a664b c24b8b70 c76c51a3 d192e819 d6990624 f40e3585 106aa070 19a4c116 1e376c08 2748774c 34b0bcb5 391c0cb3 4ed8aa4a 5b9cca4f 682e6ff3 748f82ee 78a5636f 84c87814 8cc70208 90befffa a4506ceb bef9a3f7 c67178f2" 0.

(** The eight working variables a..h, also the running hash value. *)
Record regs := Regs { ra : Z; rb : Z; rc : Z; rd : Z; re : Z; rf : Z; rg : Z; rh : Z }.

Definition H0 : regs :=
  Regs 0x6a09e667 0xbb67ae85 0x3c6ef372 0xa54ff53a 0x510e527f 0x9b05688c 0x1f83d9ab 0x5be0cd19.

(** Padding: a 1 bit, zeros up to 56 modulo 64 bytes, then the bit length
    on 64 bits, big endian. *)
Definition be_bytes (n : nat) (x : Z) : list Z :=
  map (fun i => Z.land (Z.shiftr x (8 * Z.of_nat i)) 255) (rev (seq 0 n)).

Definition pad (msg : list Z) : list Z :=
  let len := Z.of_nat (length msg) in
  msg ++ [128] ++ repeat 0 (Z.to_nat ((55 - len) mod 64)) ++ be_bytes 8 (8 * len).

Definition be_word (b0 b1 b2 b3 : Z) : Z :=
  Z.lor (Z.lor (Z.shiftl b0 24) (Z.shiftl b1 16)) (Z.lor (Z.shiftl b2 8) b3).

Fixpoint to_words (bs : list Z) : list Z :=
  match bs with
  | b0 :: b1 :: b2 :: b3 :: rest => be_word b0 b1 b2 b3 :: to_words rest
  | _ => []
  end.

(** The message schedule is kept as a sliding window of sixteen words:
    at round t it holds W_t .. W_(t+15). *)
Definition next_w (win : list Z) : Z :=
  add32 (add32 (sigma1 (nth 14 win 0)) (nth 9 win 0))
        (add32 (sigma0 (nth 1 win 0)) (nth 0 win 0)).

Definition round (st : regs * list Z) (k : Z) : regs * list Z :=
  let '(Regs a b c d e f g h, win) := st in
  let w := nth 0 win 0 in
  let t1 := add32 (add32 (add32 h (Sigma1 e)) (add32 (Ch e f g) k)) w in
  let t2 := add32 (Sigma0 a) (Maj a b c) in
  (Regs (add32 t1 t2) a b c (add32 d t1) e f g, tl win ++ [next_w win]).

Definition compress (hv : regs) (block : list Z) : regs :=
  let '(Regs a b c d e f g h) := fst (fold_left round K (hv, block)) in
  Regs (add32 (ra hv) a) (add32 (rb hv) b) (add32 (rc hv) c) (add32 (rd hv) d)
       (add32 (re hv) e) (add32 (rf hv) f) (add32 (rg hv) g) (add32 (rh hv) h).

Fixpoint blocks (n : nat) (ws : list Z) (hv : regs) : regs :=
  match n with
  | O => hv
  | S n' =>
      match ws with
      | [] => hv
      | _ => blocks n' (skipn 16 ws) (compress hv (firstn 16 ws))
      end
  end.

Definition digest_words (msg : list byte) : list Z :=
  let ws := to_words (pad (map (fun b => Z.of_N (Byte.to_N b)) msg)) in
  let '(Regs a b c d e f g h) := blocks (length ws) ws H0 in
  [a; b; c; d; e; f; g; h].

(** Lowercase hexadecimal rendering, eight digits per word. *)
Definition hex_digit (n : Z) : ascii :=
  nth (Z.to_nat (Z.land n 15))
      (list_ascii_of_string "0123456789abcdef") "0"%char.

Definition hex_word (w : Z) : list ascii :=
  map (fun i => hex_digit (Z.shiftr w (4 * Z.of_nat i))) (rev (seq 0 8)).

Definition hexdigest (msg : list byte) : string :=
  string_of_list_ascii (flat_map hex_word (digest_words msg)).

End SHA256.

(** ** Python values

    The values that travel through the ledger are the ones JSON can carry.
    A [str] is a [string] whose characters are the code points U+0000 to
    U+00FF.  A [float] is kept as the text [float.__repr__] prints for it,
    the only observation this program makes of one.  A [dict] keeps its
    items in insertion order, as Python's does. *)
#[local] Unset Elimination Schemes.
Inductive pyval : Type :=
| PyNone
| PyBool (b : bool)
| PyInt (z : Z)
| PyFloat (repr : string)
| PyStr (s : string)
| PyList (l : list pyval)
| PyDict (d : list (string * pyval)).
#[local] Set Elimination Schemes.

Abbreviation dict := (list (string * pyval)).

(** What a call can do: return, raise, or leave the embedding (the source
    then formats or compares values this development does not describe). *)
Inductive exn : Type :=
| IndexError
| KeyError (k : string)
| TypeError
| ConnectionError.

Inductive outcome (A : Type) : Type :=
| Return (a : A)
| Raise (e : exn)
| Unmodelled.
Arguments Return {A} a.
Arguments Raise {A} e.
Arguments Unmodelled {A}.

(** [d[k]] *)
Fixpoint getitem (d : dict) (k : string) : outcome pyval :=
  match d with
  | [] => Raise (KeyError k)
  | (k', v) :: d' => if String.eqb k' k then Return v else getitem d' k
  end.

(** [bool(v)], the test behind [or] and [if]. *)
Definition truthy (v : pyval) : bool :=
  match v with
  | PyNone => false
  | PyBool b => b
  | PyInt z => negb (z =? 0)
  | PyFloat r => negb (String.eqb r "0.0" || String.eqb r "-0.0")
  | PyStr s => negb (String.eqb s "")
  | PyList l => match l with [] => false | _ => true end
  | PyDict d => match d with [] => false | _ => true end
  end.

(** [str(n)] for an [int]: decimal digits, with a sign when negative. *)
Definition str_int (z : Z) : string := NilZero.string_of_int (Z.to_int z).

(** [s.encode()]: UTF-8. *)
Definition utf8_char (c : ascii) : list byte :=
  let n := N_of_ascii c in
  if (n <? 128)%N then [byte_of_ascii c]
  else match Byte.of_N (N.lor 192 (N.shiftr n 6)), Byte.of_N (N.lor 128 (N.land n 63)) with
       | Some b1, Some b2 => [b1; b2]
       | _, _ => []
       end.

Definition encode (s : string) : list byte :=
  flat_map utf8_char (list_ascii_of_string s).

(** ** [json.dumps(v, sort_keys=True)]

    Default separators [", "] and [": "], [ensure_ascii=True]. *)
Module Json.

Definition dquote : string := String "034"%char EmptyString.
Definition backslash : string := String "092"%char EmptyString.

Definition hex4 (n : Z) : string :=
  string_of_list_ascii
    (map (fun i => SHA256.hex_digit (Z.shiftr n (4 * Z.of_nat i))) (rev (seq 0 4))).

(** One character of [py_encode_basestring_ascii]. *)
Definition escape_char (c : ascii) : string :=
  let n := Z.of_N (N_of_ascii c) in
  if n =? 34 then backslash +:+ dquote
  else if n =? 92 then backslash +:+ backslash
  else if n =? 10 then backslash +:+ "n"
  else if n =? 13 then backslash +:+ "r"
  else if n =? 9 then backslash +:+ "t"
  else if n =? 8 then backslash +:+ "b"
  else if n =? 12 then backslash +:+ "f"
  else if (32 <=? n) && (n <=? 126) then String c EmptyString
  else backslash +:+ "u" +:+ hex4 n.

Definition encode_basestring_ascii (s : string) : string :=
  dquote +:+ String.concat "" (map escape_char (list_ascii_of_string s)) +:+ dquote.

(** [float.__repr__], except that JSON spells the non-finite floats its own way. *)
Definition float_str (r : string) : string :=
  if String.eqb r "nan" then "NaN"
  else if String.eqb r "inf" then "Infinity"
  else if String.eqb r "-inf" then "-Infinity"
  else r.

(** [sorted(dct.items())]: a stable sort on the keys, which are distinct in
    a [dict]; [str] compares by code points. *)
Fixpoint insert_item {A} (x : string * A) (l : list (string * A)) : list (string * A) :=
  match l with
  | [] => [x]
  | y :: l' => if String.leb (fst x) (fst y) then x :: l else y :: insert_item x l'
  end.

Definition sort_items {A} (l : list (string * A)) : list (string * A) :=
  fold_right insert_item [] l.

Definition render_item (kv : string * string) : string :=
  encode_basestring_ascii (fst kv) +:+ ": " +:+ snd kv.

(** The encoder.  The items of a [dict] are rendered before they are sorted
    so that the recursion is structural; the sort reads keys only, so the
    text is the one the source's order (sort, then render) produces, see
    [dumps_dict] below. *)
Fixpoint dumps (v : pyval) : string :=
  match v with
  | PyNone => "null"
  | PyBool true => "true"
  | PyBool false => "false"
  | PyInt z => str_int z
  | PyFloat r => float_str r
  | PyStr s => encode_basestring_ascii s
  | PyList l => "[" +:+ String.concat ", " (map dumps l) +:+ "]"
  | PyDict d =>
      "{" +:+ String.concat ", "
                (map render_item (sort_items (map (fun kv => (fst kv, dumps (snd kv))) d)))
          +:+ "}"
  end.

End Json.

(** ** The ledger: class [Blockchain] *)
Module Blockchain.

(** The attributes of an instance.  [nodes] is a Python [set]. *)
Record state : Type := State {
  chain : list dict;
  current_transactions : list dict;
  nodes : gset string
}.

(** A method is a function of the instance: it ends in a value or an
    exception, and leaves the instance in some state either way. *)
Definition M (A : Type) : Type := state -> outcome A * state.

Definition ret {A} (a : A) : M A := fun self => (Return a, self).

Definition bind {A B} (m : M A) (k : A -> M B) : M B :=
  fun self =>
    match m self with
    | (Return a, self') => k a self'
    | (Raise e, self') => (Raise e, self')
    | (Unmodelled, self') => (Unmodelled, self')
    end.

Definition lift {A} (o : outcome A) : M A := fun self => (o, self).

Definition get : M state := fun self => (Return self, self).

Definition put (self' : state) : M unit := fun _ => (Return tt, self').

Notation "'do' x <- m ; k" := (bind m (fun x => k))
  (at level 10, x name, m at level 100, k at level 200).
Notation "'run' m ; k" := (bind m (fun _ => k))
  (at level 10, m at level 100, k at level 200).

(** [Blockchain.hash(block)]:
    [hashlib.sha256(json.dumps(block, sort_keys=True).encode()).hexdigest()] *)
Definition hash (block : dict) : string :=
  let block_string := encode (Json.dumps (PyDict block)) in
  SHA256.hexdigest block_string.

(** [Blockchain.valid_proof(last_proof, proof)], on [int] arguments. *)
Definition valid_proof (last_proof proof : Z) : bool :=
  let guess := encode (str_int last_proof +:+ str_int proof) in
  let guess_hash := SHA256.hexdigest guess in
  String.eqb (substring 0 4 guess_hash) "0000".

(** [proof_of_work(last_proof)].  The [while] loop has no bound of its own:
    [fuel] bounds the number of candidates tried, and [None] means the bound
    was reached before a proof was found. *)
Fixpoint proof_of_work_from (fuel : nat) (last_proof proof : Z) : option Z :=
  match fuel with
  | O => None
  | S fuel' =>
      if valid_proof last_proof proof then Some proof
      else proof_of_work_from fuel' last_proof (proof + 1)
  end.

Definition proof_of_work (fuel : nat) (last_proof : Z) : option Z :=
  proof_of_work_from fuel last_proof 0.

(** [self.chain[-1]] *)
Definition last_block : M dict :=
  do self <- get;
  match last (chain self) with
  | Some block => ret block
  | None => lift (Raise IndexError)
  end.

(** [new_block(proof, previous_hash=None)].  [now] is what [time()]
    returns during the call. *)
Definition new_block (now : string) (proof : pyval) (previous_hash : pyval) : M dict :=
  do self <- get;
  do previous_hash' <- (if truthy previous_hash then ret previous_hash
                        else (do b <- last_block; ret (PyStr (hash b))));
  let block : dict :=
    [ ("index"%string, PyInt (Z.of_nat (length (chain self)) + 1));
      ("timestamp"%string, PyFloat now);
      ("transactions"%string, PyList (map PyDict (current_transactions self)));
      ("proof"%string, proof);
      ("previous_hash"%string, previous_hash') ] in
  run put (State (chain self ++ [block]) [] (nodes self));
  ret block.

(** [Blockchain()]: the constructor. *)
Definition init (now : string) : outcome unit * state :=
  (run new_block now (PyInt 100) (PyInt 1);
   do self <- get;
   put (State (chain self) (current_transactions self) ∅))
  (State [] [] ∅).

(** [v + 1] *)
Definition add_one (v : pyval) : outcome pyval :=
  match v with
  | PyInt z => Return (PyInt (z + 1))
  | PyBool b => Return (PyInt ((if b then 1 else 0) + 1))
  | PyFloat _ => Unmodelled
  | _ => Raise TypeError
  end.

(** [new_transaction(sender, recipient, amount)] *)
Definition new_transaction (sender recipient amount : pyval) : M pyval :=
  do self <- get;
  let tx : dict :=
    [ ("sender"%string, sender); ("recipient"%string, recipient); ("amount"%string, amount) ] in
  run put (State (chain self) (current_transactions self ++ [tx]) (nodes self));
  do b <- last_block;
  do i <- lift (getitem b "index");
  lift (add_one i).

(** [register_node(address)]; [netloc] is [urlparse(address).netloc]. *)
Definition register_node (netloc : string) : M unit :=
  do self <- get;
  put (State (chain self) (current_transactions self) ({[ netloc ]} ∪ nodes self)).

(** [v != s] for a [str] [s]. *)
Definition ne_str (v : pyval) (s : string) : bool :=
  match v with
  | PyStr s' => negb (String.eqb s' s)
  | _ => true
  end.

(** A proof handed to [valid_proof]: the embedding of [valid_proof] covers
    [int] arguments. *)
Definition as_int (v : pyval) : outcome Z :=
  match v with
  | PyInt z => Return z
  | _ => Unmodelled
  end.

Definition obind {A B} (o : outcome A) (k : A -> outcome B) : outcome B :=
  match o with
  | Return a => k a
  | Raise e => Raise e
  | Unmodelled => Unmodelled
  end.

(** The body of the [while] loop of [valid_chain]; [rest] is
    [chain[current_index:]].  The three [print] calls are left out. *)
Fixpoint valid_chain_loop (last_block : dict) (rest : list dict) : outcome bool :=
  match rest with
  | [] => Return true
  | block :: rest' =>
      obind (getitem block "previous_hash") (fun ph =>
      if ne_str ph (hash last_block) then Return false
      else
        obind (getitem last_block "proof") (fun lp =>
        obind (getitem block "proof") (fun p =>
        obind (as_int lp) (fun lp =>
        obind (as_int p) (fun p =>
        if negb (valid_proof lp p) then Return false
        else valid_chain_loop block rest')))))
  end.

(** [valid_chain(chain)]: [last_block = chain[0]], then the loop.  The
    method reads no attribute of [self]. *)
Definition valid_chain_result (candidate : list dict) : outcome bool :=
  match candidate with
  | [] => Raise IndexError
  | last_block :: rest => valid_chain_loop last_block rest
  end.

Definition valid_chain (candidate : list dict) : M bool :=
  lift (valid_chain_result candidate).

(** What [requests.get(f'http://{node}/chain')] gives when it returns.  A
    peer serves the [/chain] route of this program, so [response.json()] is
    an object with an [int] under ['length'] and a list of blocks under
    ['chain']; the source reads them only under status 200. *)
Record response : Type := Response {
  status_code : Z;
  json_length : Z;
  json_chain : list dict
}.

(** The peers as seen from this node, by URL: [None] where [requests.get]
    raises because the peer cannot be reached. *)
Definition network : Type := string -> option response.

Definition requests_get (net : network) (url : string) : M response :=
  match net url with
  | Some r => ret r
  | None => lift (Raise ConnectionError)
  end.

Definition chain_url (node : string) : string := "http://" +:+ node +:+ "/chain".

(** The [for] loop of [resolve_conflicts] over the remaining neighbours;
    it starts from, and ends with, the two locals [max_length] and
    [new_chain]. *)
Fixpoint scan (net : network) (neighbours : list string)
    (max_length : Z) (new_chain : option (list dict)) : M (Z * option (list dict)) :=
  match neighbours with
  | [] => ret (max_length, new_chain)
  | node :: rest =>
      do response <- requests_get net (chain_url node);
      if status_code response =? 200 then
        let length := json_length response in
        let chain := json_chain response in
        if length >? max_length then
          do ok <- valid_chain chain;
          if ok then scan net rest length (Some chain)
          else scan net rest max_length new_chain
        else scan net rest max_length new_chain
      else scan net rest max_length new_chain
  end.

(** [if new_chain:] *)
Definition chain_truthy (new_chain : option (list dict)) : bool :=
  match new_chain with
  | Some (_ :: _) => true
  | _ => false
  end.

(** [resolve_conflicts()].  [order] is the order in which [for node in
    neighbours] visits the members of the set [self.nodes]. *)
Definition resolve_conflicts (net : network) (order : list string) : M bool :=
  do self <- get;
  let max_length := Z.of_nat (length (chain self)) in
  do locals <- scan net order max_length None;
  let new_chain := snd locals in
  if chain_truthy new_chain then
    run put (State (default [] new_chain) (current_transactions self) (nodes self));
    ret true
  else ret false.

(** An order in which a [set] can be iterated. *)
Definition iteration_of (order : list string) (s : gset string) : Prop :=
  NoDup order ∧ ∀ n, n ∈ order ↔ n ∈ s.

End Blockchain.

Import Blockchain.

(** ** Vocabulary of the statements *)

(** A block as chain validation needs it: it has a ['previous_hash'] and an
    [int] ['proof']. *)
Definition is_block (b : dict) : Prop :=
  ∃ ph p, getitem b "previous_hash" = Return ph ∧ getitem b "proof" = Return (PyInt p).

(** [blk] is correctly linked to its predecessor [prev]: it records the
    digest of [prev], and the two proofs solve the puzzle. *)
Definition linked (prev blk : dict) : Prop :=
  getitem blk "previous_hash" = Return (PyStr (hash prev)) ∧
  ∃ lp p, getitem prev "proof" = Return (PyInt lp) ∧
          getitem blk "proof" = Return (PyInt p) ∧
          valid_proof lp p = true.

(** Peer [node] answers 200 with a chain [ch] that passes [valid_chain] and
    a reported length [len] above [local_len]. *)
Definition qualifies (net : network) (local_len : Z) (node : string)
    (len : Z) (ch : list dict) : Prop :=
  ∃ r, net (chain_url node) = Some r ∧ status_code r = 200 ∧
       json_length r = len ∧ json_chain r = ch ∧
       local_len < len ∧ valid_chain_result ch = Return true.

(** A peer that answers, and whose chain, if it answers 200, is a non-empty
    list of blocks. *)
Definition well_behaved (net : network) (node : string) : Prop :=
  ∃ r, net (chain_url node) = Some r ∧
       (status_code r = 200 → json_chain r ≠ [] ∧ Forall is_block (json_chain r)).

(** The lowercase hexadecimal digits. *)
Definition lower_hex (c : ascii) : Prop :=
  In c (list_ascii_of_string "0123456789abcdef").

(** Two values with the same content: equal up to the order in which the
    items of their dicts, at any depth, were inserted. *)
#[local] Unset Elimination Schemes.
Inductive same_content : pyval → pyval → Prop :=
| sc_refl v : same_content v v
| sc_trans u v w : same_content u v → same_content v w → same_content u w
| sc_list l1 l2 :
    Forall2 same_content l1 l2 → same_content (PyList l1) (PyList l2)
| sc_values d1 d2 :
    Forall2 (λ x y, x.1 = y.1 ∧ same_content x.2 y.2) d1 d2 →
    same_content (PyDict d1) (PyDict d2)
| sc_order d1 d2 :
    NoDup (map fst d1) → Permutation d1 d2 →
    same_content (PyDict d1) (PyDict d2).
#[local] Set Elimination Schemes.

(** ** Sample data: a two-block chain and a node with two peers *)

Definition some_pool : list dict :=
  [ [ ("sender"%string, PyStr "A"); ("recipient"%string, PyStr "B");
      ("amount"%string, PyInt 5) ] ].

Definition genesis_block : dict :=
  [ ("index"%string, PyInt 1); ("timestamp"%string, PyFloat "1700000000.5");
    ("transactions"%string, PyList []); ("proof"%string, PyInt 100);
    ("previous_hash"%string, PyInt 1) ].

Definition second_block : dict :=
  [ ("index"%string, PyInt 2); ("timestamp"%string, PyFloat "1700000060.25");
    ("transactions"%string, PyList (map PyDict some_pool));
    ("proof"%string, PyInt 35293);
    ("previous_hash"%string, PyStr (hash genesis_block)) ].

(** The second block again, its fields and those of its transaction
    inserted in another order. *)
Definition second_block_reordered : dict :=
  [ ("previous_hash"%string, PyStr (hash genesis_block));
    ("index"%string, PyInt 2);
    ("timestamp"%string, PyFloat "1700000060.25");
    ("proof"%string, PyInt 35293);
    ("transactions"%string,
      PyList [ PyDict [ ("amount"%string, PyInt 5);
                        ("sender"%string, PyStr "A");
                        ("recipient"%string, PyStr "B") ] ]) ].

Definition fresh : state := State [genesis_block] [] ∅.

Definition demo_state : state :=
  State [genesis_block] some_pool ({[ "a:5000"%string ]} ∪ {[ "b:5000"%string ]}).

(** Peer a holds two blocks, peer b only the genesis block. *)
Definition demo_net : network := λ url,
  if String.eqb url "http://a:5000/chain"
  then Some (Response 200 2 [genesis_block; second_block])
  else if String.eqb url "http://b:5000/chain"
  then Some (Response 200 1 [genesis_block])
  else None.

(** Peer a answers 404. *)
Definition not_found_net : network := λ url,
  if String.eqb url "http://a:5000/chain" then Some (Response 404 0 [])
  else demo_net url.

(** Peer a cannot be reached; peer b holds two blocks. *)
Definition down_net : network := λ url,
  if String.eqb url "http://b:5000/chain"
  then Some (Response 200 2 [genesis_block; second_block])
  else None.

(** ** The routes of the Flask application

    Each route works on the one global [blockchain]; its result is the body
    handed to Flask (a string, or the value given to [jsonify]) and the
    status code. *)
Module App.

Definition reply : Type := pyval * Z.

(** [k in values] for a [str] [k]: a key of a dict, an element of a list, a
    substring of a string; the other JSON values are not iterable. *)
Definition contains (values : pyval) (k : string) : outcome bool :=
  match values with
  | PyDict d => Return (existsb (λ kv, String.eqb kv.1 k) d)
  | PyList l =>
      Return (existsb (λ v, match v with PyStr s => String.eqb s k | _ => false end) l)
  | PyStr s => Return (match String.index 0 k s with Some _ => true | None => false end)
  | _ => Raise TypeError
  end.

(** [all(k in values for k in required)] stops at the first [False]. *)
Fixpoint all_in (values : pyval) (required : list string) : outcome bool :=
  match required with
  | [] => Return true
  | k :: rest =>
      obind (contains values k) (λ b, if b then all_in values rest else Return false)
  end.

(** [values[k]] for a [str] [k]: only a dict can be indexed by a string. *)
Definition subscript (values : pyval) (k : string) : outcome pyval :=
  match values with
  | PyDict d => getitem d k
  | _ => Raise TypeError
  end.

(** [new_transaction()], route [/transactions/new]; [values] is
    [request.get_json()]. *)
Definition new_transaction (values : pyval) : M reply :=
  do present <- lift (all_in values ["sender"; "recipient"; "amount"]%string);
  if negb present then ret (PyStr "Missing values", 400)
  else
    do sender <- lift (subscript values "sender");
    do recipient <- lift (subscript values "recipient");
    do amount <- lift (subscript values "amount");
    do index <- Blockchain.new_transaction sender recipient amount;
    do i <- lift (as_int index);
    ret (PyDict [("message"%string,
                  PyStr ("Transaction will be added to Block " +:+ str_int i))], 201).


(** [full_chain()], route [/chain]. *)
Definition full_chain : M reply :=
  do self <- get;
  ret (PyDict [ ("chain"%string, PyList (map PyDict (chain self)));
                ("length"%string, PyInt (Z.of_nat (length (chain self)))) ], 200).


End App.

(** ** Vocabulary for the node as a whole *)




(** What a node receives from [node] when that peer runs [full_chain] on the
    state [peer]: the status and the body of the reply, the items of its
    dicts in any order. *)
Definition serves (net : network) (node : string) (peer : state) : Prop :=
  ∃ r body, net (chain_url node) = Some r ∧
            fst (App.full_chain peer) = Return (body, status_code r) ∧
            same_content body
              (PyDict [ ("chain"%string, PyList (map PyDict (json_chain r)));
                        ("length"%string, PyInt (json_length r)) ]).

(** Two outcomes that agree up to the order of dict items. *)
Definition same_outcome (o1 o2 : outcome pyval) : Prop :=
  match o1, o2 with
  | Return v1, Return v2 => same_content v1 v2
  | Raise e1, Raise e2 => e1 = e2
  | Unmodelled, Unmodelled => True
  | _, _ => False
  end.

(** What [same_content] says of a value by its kind: a dict is matched by a
    dict that answers every key alike, a list by a list, item by item, and
    any other value only by itself. *)
Definition content_shape (u v : pyval) : Prop :=
  match u with
  | PyDict d1 => ∃ d2, v = PyDict d2 ∧ ∀ k, same_outcome (getitem d1 k) (getitem d2 k)
  | PyList l1 => ∃ l2, v = PyList l2 ∧ Forall2 same_content l1 l2
  | _ => v = u
  end.

(** Two blocks with the same content. *)
Definition same_block (a b : dict) : Prop := same_content (PyDict a) (PyDict b).

(** More sample data: a node that holds two blocks, a peer that overstates
    the length of a one-block chain, and a peer that sends no block at all. *)
Definition two_block_state : state := State [genesis_block; second_block] some_pool ∅.

Definition liar_net : network := λ url,
  if String.eqb url "http://a:5000/chain" then Some (Response 200 3 [genesis_block])
  else None.

Definition empty_chain_net : network := λ url,
  if String.eqb url "http://a:5000/chain" then Some (Response 200 5 [])
  else demo_net url.





(** * Properties *)

(** ** SHA-256: shape of the digest *)

Lemma wrap_mod x : SHA256.wrap x = x mod 2 ^ 32.
Proof. unfold SHA256.wrap. now rewrite <- (Z.land_ones x 32) by lia. Qed.

Lemma string_of_list_ascii_length l :
  String.length (string_of_list_ascii l) = length l.
Proof. induction l as [|c l IH]; simpl; [reflexivity | now rewrite IH]. Qed.

Lemma digest_words_length msg : length (SHA256.digest_words msg) = 8%nat.
Proof. unfold SHA256.digest_words. now destruct (SHA256.blocks _ _ _). Qed.

Lemma flat_map_hex_word_length ws :
  length (flat_map SHA256.hex_word ws) = (8 * length ws)%nat.
Proof.
  induction ws as [|w ws IH]; [reflexivity|].
  cbn [flat_map]. rewrite length_app, IH.
  change (length (SHA256.hex_word w)) with 8%nat. cbn [length]. lia.
Qed.

Lemma hexdigest_length msg : String.length (SHA256.hexdigest msg) = 64%nat.
Proof.
  unfold SHA256.hexdigest.
  now rewrite string_of_list_ascii_length, flat_map_hex_word_length, digest_words_length.
Qed.

Lemma hex_digit_lower n : lower_hex (SHA256.hex_digit n).
Proof.
  unfold lower_hex, SHA256.hex_digit.
  destruct (nth_in_or_default (Z.to_nat (Z.land n 15))
              (list_ascii_of_string "0123456789abcdef") "0"%char) as [H | ->];
    [exact H | cbn; tauto].
Qed.

Lemma hexdigest_lower_hex msg :
  Forall lower_hex (list_ascii_of_string (SHA256.hexdigest msg)).
Proof.
  unfold SHA256.hexdigest. rewrite list_ascii_of_string_of_list_ascii.
  apply Forall_forall. intros c Hc. apply list_elem_of_In, in_flat_map in Hc.
  destruct Hc as (w & _ & Hc). unfold SHA256.hex_word in Hc.
  apply in_map_iff in Hc as (i & <- & _). apply hex_digit_lower.
Qed.

#[global] Opaque SHA256.hexdigest.

(** ** The puzzle *)

Lemma substring_0_0 s : substring 0 0 s = ""%string.
Proof. now destruct s. Qed.

(** [s[:4] == '0000'] says that [s] starts with four zeros. *)
Lemma slice4_zeros s :
  String.eqb (substring 0 4 s) "0000" = true ↔ ∃ rest, s = "0000" +:+ rest.
Proof.
  rewrite String.eqb_eq. split.
  - destruct s as [|c0 [|c1 [|c2 [|c3 s]]]]; cbn; try discriminate.
    rewrite substring_0_0. intros [= -> -> -> ->]. now exists s.
  - intros [rest ->]. cbn. now destruct rest.
Qed.

(** C6: on integers, [valid_proof] holds exactly when the SHA-256 hex digest
    of the decimal text of [last_proof] immediately followed by the decimal
    text of [proof] starts with the four characters "0000". *)
Theorem valid_proof_iff_four_zeros (last_proof proof : Z) :
  valid_proof last_proof proof = true ↔
  ∃ rest, SHA256.hexdigest (encode (str_int last_proof +:+ str_int proof))
          = "0000" +:+ rest.
Proof. unfold valid_proof. cbv zeta. apply slice4_zeros. Qed.

(** The decimal text of an integer reads back as that integer. *)
Lemma str_int_read_back z :
  Z.of_int <$> NilZero.int_of_string (str_int z) = Some z.
Proof.
  unfold str_int. rewrite NilZero.isi.
  - cbn. now rewrite DecimalZ.of_to.
  - destruct z; cbn; [discriminate | |discriminate].
    intros [= H]. now apply DecimalPos.Unsigned.to_uint_nonnil in H.
  - destruct z; cbn; [discriminate | discriminate |].
    intros [= H]. now apply DecimalPos.Unsigned.to_uint_nonnil in H.
Qed.

(** ** Proof of work *)

Lemma proof_of_work_from_found p (n : nat) : ∀ start c,
  Z.to_nat (c - start) = n → start ≤ c → valid_proof p c = true →
  ∃ r, start ≤ r ≤ c ∧ valid_proof p r = true ∧
       (∀ k, start ≤ k < r → valid_proof p k = false) ∧
       ∀ fuel, (Z.to_nat (r - start) < fuel)%nat →
               proof_of_work_from fuel p start = Some r.
Proof.
  induction n as [|n IH]; intros start c Hn Hle Hc.
  - assert (c = start) as -> by lia. exists start.
    repeat split; try lia; [assumption|].
    intros [|fuel] Hf; [lia|]. cbn. now rewrite Hc.
  - destruct (valid_proof p start) eqn:Hs.
    + exists start. repeat split; try lia; [assumption|].
      intros [|fuel] Hf; [lia|]. cbn. now rewrite Hs.
    + destruct (IH (start + 1) c) as (r & Hr & Hv & Hmin & Hrun); [lia | lia | assumption |].
      exists r. repeat split; try lia; [assumption | |].
      * intros k Hk. destruct (Z.eq_dec k start) as [-> | Hne]; [assumption|].
        apply Hmin. lia.
      * intros [|fuel] Hf; [lia|]. cbn. rewrite Hs. apply Hrun. lia.
Qed.

Lemma proof_of_work_from_sound p (fuel : nat) : ∀ start r,
  proof_of_work_from fuel p start = Some r →
  start ≤ r ∧ valid_proof p r = true ∧ ∀ k, start ≤ k < r → valid_proof p k = false.
Proof.
  induction fuel as [|fuel IH]; intros start r H; [discriminate|].
  cbn in H. destruct (valid_proof p start) eqn:Hs.
  - injection H as <-. repeat split; [lia | assumption | lia].
  - apply IH in H as (Hle & Hv & Hmin). repeat split; [lia | assumption |].
    intros k Hk. destruct (Z.eq_dec k start) as [-> | Hne]; [assumption|].
    apply Hmin. lia.
Qed.

(** C5: when some candidate solves the puzzle for [p], the search started
    at 0 ends, with enough iterations, on the smallest non-negative solution;
    the result is the same whatever the number of iterations allowed. *)
Theorem proof_of_work_smallest (p c : Z) :
  0 ≤ c → valid_proof p c = true →
  ∃ r, 0 ≤ r ≤ c ∧ valid_proof p r = true ∧
       (∀ k, 0 ≤ k < r → valid_proof p k = false) ∧
       (∀ fuel, (Z.to_nat r < fuel)%nat → proof_of_work fuel p = Some r) ∧
       (∀ fuel r', proof_of_work fuel p = Some r' → r' = r).
Proof.
  intros Hc Hv.
  destruct (proof_of_work_from_found p (Z.to_nat (c - 0)) 0 c eq_refl Hc Hv)
    as (r & Hr & Hvr & Hmin & Hrun).
  exists r. repeat split; try lia; try assumption.
  - intros fuel Hf. apply Hrun. now rewrite Z.sub_0_r.
  - intros fuel r' H. apply proof_of_work_from_sound in H as (Hle & Hv' & Hmin').
    destruct (Z.lt_trichotomy r' r) as [Hlt | [Heq | Hgt]]; [|assumption|].
    + rewrite Hmin in Hv' by lia. discriminate.
    + rewrite Hmin' in Hvr by lia. discriminate.
Qed.

Lemma proof_of_work_smallest_witness :
  ∃ r, 0 ≤ r ≤ 35293 ∧ valid_proof 100 r = true ∧
       (∀ k, 0 ≤ k < r → valid_proof 100 k = false) ∧
       (∀ fuel, (Z.to_nat r < fuel)%nat → proof_of_work fuel 100 = Some r) ∧
       (∀ fuel r', proof_of_work fuel 100 = Some r' → r' = r).
Proof.
  apply (proof_of_work_smallest 100 35293); [lia | vm_compute; reflexivity].
Defined.

(** ** Construction and minting *)

(** C7: a fresh ledger holds one genesis block with index 1 and proof 100
    and an empty pending pool; the genesis ['previous_hash'] is the integer
    1, which is not the string "1". *)
Theorem init_genesis (now : string) :
  ∃ g, init now = (Return tt, State [g] [] ∅) ∧
       getitem g "index" = Return (PyInt 1) ∧
       getitem g "proof" = Return (PyInt 100) ∧
       getitem g "previous_hash" = Return (PyInt 1) ∧
       getitem g "previous_hash" ≠ Return (PyStr "1").
Proof. eexists. repeat split. discriminate. Qed.

(** The block [new_block] builds, field by field. *)
Lemma new_block_truthy now proof ph self :
  truthy ph = true →
  new_block now proof ph self =
  (let block : dict :=
     [ ("index"%string, PyInt (Z.of_nat (length (chain self)) + 1));
       ("timestamp"%string, PyFloat now);
       ("transactions"%string, PyList (map PyDict (current_transactions self)));
       ("proof"%string, proof);
       ("previous_hash"%string, ph) ] in
   (Return block, State (chain self ++ [block]) [] (nodes self))).
Proof. intros H. unfold new_block, bind, get. now rewrite H. Qed.

Lemma new_block_falsy now proof ph self b :
  truthy ph = false → last (chain self) = Some b →
  new_block now proof ph self =
  (let block : dict :=
     [ ("index"%string, PyInt (Z.of_nat (length (chain self)) + 1));
       ("timestamp"%string, PyFloat now);
       ("transactions"%string, PyList (map PyDict (current_transactions self)));
       ("proof"%string, proof);
       ("previous_hash"%string, PyStr (hash b)) ] in
   (Return block, State (chain self ++ [block]) [] (nodes self))).
Proof.
  intros H Hb. unfold new_block, last_block, bind, get. rewrite H. cbn.
  now rewrite Hb.
Qed.


(** C4, as the code has it: [new_block] returns a block with index
    [len(chain)+1], the whole pending pool in insertion order and the given
    proof; its ['previous_hash'] is the given argument when that is truthy,
    and otherwise the digest of the last block of the chain.  The block is
    appended to the chain and the pending pool is emptied. *)
Theorem new_block_spec (now : string) (proof previous_hash : pyval) (self : state) :
  truthy previous_hash = true ∨ chain self ≠ [] →
  ∃ block,
    new_block now proof previous_hash self
    = (Return block, State (chain self ++ [block]) [] (nodes self)) ∧
    getitem block "index" = Return (PyInt (Z.of_nat (length (chain self)) + 1)) ∧
    getitem block "transactions"
    = Return (PyList (map PyDict (current_transactions self))) ∧
    getitem block "proof" = Return proof ∧
    (truthy previous_hash = true →
     getitem block "previous_hash" = Return previous_hash) ∧
    (truthy previous_hash = false →
     ∃ b, last (chain self) = Some b ∧
          getitem block "previous_hash" = Return (PyStr (hash b))).
Proof.
  intros H. destruct (truthy previous_hash) eqn:Ht.
  - rewrite new_block_truthy by assumption. cbv zeta.
    eexists. split; [reflexivity|]. do 3 (split; [reflexivity|]).
    split; [intros _; reflexivity | discriminate].
  - destruct H as [H|H]; [discriminate|].
    destruct (last (chain self)) as [b|] eqn:Hb.
    + rewrite (new_block_falsy _ _ _ _ b) by assumption. cbv zeta.
      eexists. split; [reflexivity|]. do 3 (split; [reflexivity|]).
      split; [discriminate | intros _; now exists b].
    + apply last_None in Hb. contradiction.
Qed.

Lemma new_block_spec_witness :
  ∃ block,
    new_block "1700000000.5" (PyInt 35293) (PyStr "abc") (State [] some_pool ∅)
    = (Return block, State ([] ++ [block]) [] ∅) ∧
    getitem block "index" = Return (PyInt (0 + 1)) ∧
    getitem block "transactions" = Return (PyList (map PyDict some_pool)) ∧
    getitem block "proof" = Return (PyInt 35293) ∧
    (truthy (PyStr "abc") = true →
     getitem block "previous_hash" = Return (PyStr "abc")) ∧
    (truthy (PyStr "abc") = false →
     ∃ b, last ([] : list dict) = Some b ∧
          getitem block "previous_hash" = Return (PyStr (hash b))).
Proof.
  apply (new_block_spec "1700000000.5" (PyInt 35293) (PyStr "abc")
           (State [] some_pool ∅)).
  left. reflexivity.
Defined.

(** An empty string given as [previous_hash] is not what the block records. *)
Lemma new_block_ignores_falsy_previous_hash :
  ∃ self block self',
    new_block "1700000000.5" (PyInt 5) (PyStr "") self = (Return block, self') ∧
    getitem block "previous_hash" ≠ Return (PyStr "").
Proof.
  exists (snd (init "1700000000.5")). eexists. eexists. split.
  - apply new_block_falsy; reflexivity.
  - cbn. remember (hash _) as h eqn:Hh.
    assert (String.length h = 64%nat) as Hl
      by (rewrite Hh; unfold hash; apply hexdigest_length).
    clear Hh. intros [= ->]. discriminate.
Qed.

(** ** Chain validation *)

Lemma ne_str_false v s : ne_str v s = false ↔ v = PyStr s.
Proof.
  destruct v; cbn; try (split; [discriminate | intros [=]]).
  rewrite negb_false_iff, String.eqb_eq. split; [now intros -> | now intros [= ->]].
Qed.

(** One turn of the loop on two blocks: either the link holds and the loop
    moves on, or it is broken and the loop returns [False] whatever follows. *)
Lemma valid_chain_loop_step prev blk :
  is_block prev → is_block blk →
  (linked prev blk ∧
   ∀ rest, valid_chain_loop prev (blk :: rest) = valid_chain_loop blk rest) ∨
  (¬ linked prev blk ∧
   ∀ rest, valid_chain_loop prev (blk :: rest) = Return false).
Proof.
  intros (ph0 & lp & _ & Hlp) (ph & p & Hph & Hp).
  destruct (ne_str ph (hash prev)) eqn:Hne.
  - right. split.
    + intros [Hl _]. rewrite Hph in Hl. injection Hl as ->.
      assert (ne_str (PyStr (hash prev)) (hash prev) = false) as E
        by now apply ne_str_false.
      rewrite E in Hne. discriminate.
    + intros rest. cbn [valid_chain_loop]. rewrite Hph. cbn [obind]. now rewrite Hne.
  - apply ne_str_false in Hne as Hph'. subst ph.
    destruct (valid_proof lp p) eqn:Hv.
    + left. split.
      * split; [assumption|]. now exists lp, p.
      * intros rest. cbn [valid_chain_loop]. rewrite Hph. cbn [obind].
        rewrite Hne, Hlp, Hp. cbn [obind as_int]. now rewrite Hv.
    + right. split.
      * intros (_ & lp' & p' & Hlp' & Hp' & Hv').
        rewrite Hlp in Hlp'. rewrite Hp in Hp'.
        injection Hlp' as <-. injection Hp' as <-. rewrite Hv in Hv'. discriminate.
      * intros rest. cbn [valid_chain_loop]. rewrite Hph. cbn [obind].
        rewrite Hne, Hlp, Hp. cbn [obind as_int]. now rewrite Hv.
Qed.

Lemma valid_chain_loop_spec rest : ∀ prev,
  Forall is_block (prev :: rest) →
  (valid_chain_loop prev rest = Return true ∧
   ∀ i x y, (prev :: rest) !! i = Some x → (prev :: rest) !! S i = Some y →
            linked x y) ∨
  (valid_chain_loop prev rest = Return false ∧
   ∃ i x y, (prev :: rest) !! i = Some x ∧ (prev :: rest) !! S i = Some y ∧
            ¬ linked x y ∧
            (∀ j x' y', (j < i)%nat → (prev :: rest) !! j = Some x' →
                        (prev :: rest) !! S j = Some y' → linked x' y') ∧
            ∀ post, valid_chain_loop prev (take (S i) rest ++ post) = Return false).
Proof.
  induction rest as [|blk rest IH]; intros prev Hall.
  - left. split; [reflexivity|]. intros i x y _ H. discriminate.
  - apply Forall_cons in Hall as [Hprev Hall].
    pose proof Hall as Hall'. apply Forall_cons in Hall' as [Hblk _].
    destruct (valid_chain_loop_step prev blk Hprev Hblk) as [[Hl Hstep] | [Hl Hstep]].
    + rewrite Hstep. destruct (IH blk Hall) as [[Hr Hlinks] | (Hr & i & x & y & Hx & Hy & Hn & Hbefore & Hpost)].
      * left. split; [assumption|]. intros [|i] x y Hx Hy.
        -- cbn in Hx, Hy. injection Hx as <-. injection Hy as <-. exact Hl.
        -- exact (Hlinks i x y Hx Hy).
      * right. split; [assumption|]. exists (S i), x, y.
        split; [exact Hx|]. split; [exact Hy|]. split; [exact Hn|]. split.
        -- intros [|j] x' y' Hj Hx' Hy'.
           ++ cbn in Hx', Hy'. injection Hx' as <-. injection Hy' as <-. exact Hl.
           ++ apply (Hbefore j x' y'); [lia | exact Hx' | exact Hy'].
        -- intros post. change (take (S (S i)) (blk :: rest)) with (blk :: take (S i) rest).
           cbn [app]. rewrite Hstep. apply Hpost.
    + right. split; [apply Hstep|]. exists 0%nat, prev, blk.
      split; [reflexivity|]. split; [reflexivity|]. split; [exact Hl|]. split.
      * intros j x' y' Hj. lia.
      * intros post. cbn [take app]. apply Hstep.
Qed.

(** C3: on a non-empty chain of blocks, [valid_chain] returns a boolean and
    changes nothing in the ledger.  It returns [True] exactly when every
    block from the second on is linked to its predecessor (so always for a
    chain of one block); when it returns [False] there is a first broken
    link, every link before it holds, and the answer is already [False]
    on the chain cut after that block, whatever follows. *)
Theorem valid_chain_spec (candidate : list dict) (self : state) :
  candidate ≠ [] → Forall is_block candidate →
  ∃ b, valid_chain candidate self = (Return b, self) ∧
       (b = true ↔
        ∀ i prev blk, candidate !! i = Some prev → candidate !! S i = Some blk →
                      linked prev blk) ∧
       (b = false →
        ∃ i prev blk, candidate !! i = Some prev ∧ candidate !! S i = Some blk ∧
                      ¬ linked prev blk ∧
                      (∀ j x y, (j < i)%nat → candidate !! j = Some x →
                                candidate !! S j = Some y → linked x y) ∧
                      ∀ post, valid_chain (take (S (S i)) candidate ++ post) self
                              = (Return false, self)) ∧
       (length candidate = 1%nat → b = true).
Proof.
  intros Hne Hall. destruct candidate as [|first rest]; [contradiction|].
  unfold valid_chain, lift. cbn [valid_chain_result].
  destruct (valid_chain_loop_spec rest first Hall)
    as [[Hr Hlinks] | (Hr & i & x & y & Hx & Hy & Hn & Hbefore & Hpost)].
  - exists true. rewrite Hr. split; [reflexivity|]. split; [|split].
    + split; [intros _; exact Hlinks | reflexivity].
    + discriminate.
    + reflexivity.
  - exists false. rewrite Hr. split; [reflexivity|]. split; [|split].
    + split; [discriminate|]. intros Hlinks. destruct Hn. exact (Hlinks i x y Hx Hy).
    + intros _. exists i, x, y. repeat (split; [assumption|]).
      intros post. change (take (S (S i)) (first :: rest)) with (first :: take (S i) rest).
      cbn [app valid_chain_result]. now rewrite Hpost.
    + intros Hlen. destruct rest; [discriminate Hr | discriminate Hlen].
Qed.

Lemma genesis_second_linked : linked genesis_block second_block.
Proof.
  split; [reflexivity|]. exists 100, 35293.
  split; [reflexivity|]. split; [reflexivity|]. vm_compute. reflexivity.
Qed.

Lemma genesis_is_block : is_block genesis_block.
Proof. exists (PyInt 1), 100. split; reflexivity. Qed.

Lemma second_is_block : is_block second_block.
Proof. exists (PyStr (hash genesis_block)), 35293. split; reflexivity. Qed.

Lemma two_blocks_are_blocks : Forall is_block [genesis_block; second_block].
Proof. repeat constructor; [exact genesis_is_block | exact second_is_block]. Qed.

Lemma valid_chain_spec_witness :
  ([genesis_block; second_block] ≠ [] ∧ Forall is_block [genesis_block; second_block]) ∧
  valid_chain [genesis_block; second_block] fresh = (Return true, fresh).
Proof.
  assert ([genesis_block; second_block] ≠ []) as Hne by discriminate.
  split; [split; [exact Hne | exact two_blocks_are_blocks]|].
  destruct (valid_chain_spec [genesis_block; second_block] fresh Hne two_blocks_are_blocks)
    as (b & Hrun & Htrue & _).
  rewrite Hrun. f_equal. f_equal. apply Htrue.
  intros [|[|i]] prev blk Hp Hb; try discriminate Hb.
  injection Hp as <-. injection Hb as <-. exact genesis_second_linked.
Defined.

(** C10: on the empty list [valid_chain] raises [IndexError] at [chain[0]],
    so a call that returns a boolean was given a non-empty chain. *)
Theorem valid_chain_empty_raises (self : state) :
  valid_chain [] self = (Raise IndexError, self) ∧
  ∀ candidate b, fst (valid_chain candidate self) = Return b → candidate ≠ [].
Proof.
  split; [reflexivity|]. intros candidate b H ->. discriminate H.
Qed.

(** ** Canonical serialisation and the block digest *)

Lemma ascii_compare_refl c : Ascii.compare c c = Eq.
Proof. apply N.compare_refl. Qed.

Lemma ascii_compare_lt_trans a b c :
  Ascii.compare a b = Lt → Ascii.compare b c = Lt → Ascii.compare a c = Lt.
Proof. unfold Ascii.compare. rewrite !N.compare_lt_iff. lia. Qed.

Lemma string_compare_lt_trans s1 : ∀ s2 s3,
  String.compare s1 s2 = Lt → String.compare s2 s3 = Lt → String.compare s1 s3 = Lt.
Proof.
  induction s1 as [|c1 s1 IH]; intros [|c2 s2] [|c3 s3]; cbn; try easy.
  destruct (Ascii.compare c1 c2) eqn:H12; try discriminate;
    destruct (Ascii.compare c2 c3) eqn:H23; try discriminate.
  - apply Ascii.compare_eq_iff in H12, H23. subst.
    rewrite ascii_compare_refl. apply IH.
  - apply Ascii.compare_eq_iff in H12. subst. now rewrite H23.
  - apply Ascii.compare_eq_iff in H23. subst. now rewrite H12.
  - now rewrite (ascii_compare_lt_trans _ _ _ H12 H23).
Qed.

Lemma string_leb_trans s1 s2 s3 :
  String.leb s1 s2 = true → String.leb s2 s3 = true → String.leb s1 s3 = true.
Proof.
  unfold String.leb.
  destruct (String.compare s1 s2) eqn:H12; try discriminate;
    destruct (String.compare s2 s3) eqn:H23; try discriminate; intros _ _.
  - apply String.compare_eq_iff in H12. subst. now rewrite H23.
  - apply String.compare_eq_iff in H12. subst. now rewrite H23.
  - apply String.compare_eq_iff in H23. subst. now rewrite H12.
  - now rewrite (string_compare_lt_trans _ _ _ H12 H23).
Qed.

Section Sorting.
Context {A : Type}.
Implicit Types (x y : string * A) (l : list (string * A)).

(** Two items with different keys can be inserted in either order. *)
Lemma insert_item_comm x y l :
  x.1 ≠ y.1 →
  Json.insert_item x (Json.insert_item y l) = Json.insert_item y (Json.insert_item x l).
Proof.
  intros Hne. induction l as [|z l IH].
  - cbn. destruct (String.leb x.1 y.1) eqn:Hxy, (String.leb y.1 x.1) eqn:Hyx;
      try reflexivity.
    + destruct Hne. now apply String.leb_antisym.
    + destruct (String.leb_total x.1 y.1); congruence.
  - cbn [Json.insert_item].
    destruct (String.leb y.1 z.1) eqn:Hyz, (String.leb x.1 z.1) eqn:Hxz;
      cbn [Json.insert_item]; rewrite ?Hyz, ?Hxz.
    + destruct (String.leb x.1 y.1) eqn:Hxy, (String.leb y.1 x.1) eqn:Hyx;
        cbn [Json.insert_item]; rewrite ?Hyz, ?Hxz; try reflexivity.
      * destruct Hne. now apply String.leb_antisym.
      * destruct (String.leb_total x.1 y.1); congruence.
    + destruct (String.leb x.1 y.1) eqn:Hxy.
      * rewrite (string_leb_trans _ _ _ Hxy Hyz) in Hxz. discriminate.
      * reflexivity.
    + destruct (String.leb y.1 x.1) eqn:Hyx.
      * rewrite (string_leb_trans _ _ _ Hyx Hxz) in Hyz. discriminate.
      * reflexivity.
    + now rewrite IH.
Qed.

Lemma sort_items_cons x l :
  Json.sort_items (x :: l) = Json.insert_item x (Json.sort_items l).
Proof. reflexivity. Qed.

(** Sorting items with distinct keys forgets the order they came in. *)
Lemma sort_items_perm l1 l2 :
  NoDup l1.*1 → Permutation l1 l2 → Json.sort_items l1 = Json.sort_items l2.
Proof.
  intros Hnd Hp. induction Hp as [|x l1 l2 Hp IH|x y l|l1 l2 l3 Hp1 IH1 Hp2 IH2].
  - reflexivity.
  - rewrite !sort_items_cons. cbn in Hnd. apply NoDup_cons in Hnd as [_ Hnd].
    now rewrite IH.
  - rewrite !sort_items_cons. cbn in Hnd. apply NoDup_cons in Hnd as [Hx _].
    apply insert_item_comm. intros E. apply Hx. rewrite E. now left.
  - rewrite IH1 by assumption. apply IH2. now rewrite <- Hp1.
Qed.
End Sorting.

(** The sort reads keys only, so it commutes with any change of the values. *)
Lemma insert_item_fmap {A B} (f : A → B) (x : string * A) l :
  Json.insert_item (x.1, f x.2) (map (λ kv, (kv.1, f kv.2)) l)
  = map (λ kv, (kv.1, f kv.2)) (Json.insert_item x l).
Proof.
  induction l as [|y l IH]; [reflexivity|].
  cbn. destruct (String.leb x.1 y.1); [reflexivity|]. cbn. now rewrite <- IH.
Qed.

Lemma sort_items_fmap {A B} (f : A → B) (l : list (string * A)) :
  Json.sort_items (map (λ kv, (kv.1, f kv.2)) l)
  = map (λ kv, (kv.1, f kv.2)) (Json.sort_items l).
Proof.
  induction l as [|x l IH]; [reflexivity|].
  cbn [map]. rewrite !sort_items_cons, IH. apply insert_item_fmap.
Qed.

(** The text of a dict, in the source's order: sort the items, then render
    each as ["key": value]. *)
Lemma dumps_dict (d : dict) :
  Json.dumps (PyDict d)
  = "{" +:+ String.concat ", "
              (map (λ kv, Json.encode_basestring_ascii kv.1 +:+ ": " +:+ Json.dumps kv.2)
                   (Json.sort_items d))
        +:+ "}".
Proof.
  cbn [Json.dumps]. rewrite (sort_items_fmap Json.dumps), map_map. reflexivity.
Qed.

(** Induction on [same_content], with the hypothesis available under the
    list and dict rules as well. *)
Lemma same_content_ind (P : pyval → pyval → Prop)
  (Hrefl : ∀ v, P v v)
  (Htrans : ∀ u v w, P u v → P v w → P u w)
  (Hlist : ∀ l1 l2, Forall2 P l1 l2 → P (PyList l1) (PyList l2))
  (Hvalues : ∀ d1 d2, Forall2 (λ x y, x.1 = y.1 ∧ P x.2 y.2) d1 d2 →
                      P (PyDict d1) (PyDict d2))
  (Horder : ∀ d1 d2, NoDup d1.*1 → Permutation d1 d2 → P (PyDict d1) (PyDict d2)) :
  ∀ u v, same_content u v → P u v.
Proof.
  fix IH 3. intros u v H. destruct H as [v|u v w H1 H2|l1 l2 H|d1 d2 H|d1 d2 Hnd Hp].
  - apply Hrefl.
  - exact (Htrans u v w (IH _ _ H1) (IH _ _ H2)).
  - apply Hlist. revert l1 l2 H. fix IHl 3. intros l1 l2 H.
    destruct H as [|x y l1 l2 Hxy H]; constructor; [exact (IH _ _ Hxy) | exact (IHl _ _ H)].
  - apply Hvalues. revert d1 d2 H. fix IHl 3. intros d1 d2 H.
    destruct H as [|x y d1 d2 [Hk Hxy] H]; constructor;
      [exact (conj Hk (IH _ _ Hxy)) | exact (IHl _ _ H)].
  - exact (Horder d1 d2 Hnd Hp).
Qed.

(** Values with the same content have the same JSON text. *)
Lemma dumps_same_content u v : same_content u v → Json.dumps u = Json.dumps v.
Proof.
  induction 1 as [v|u v w IH1 IH2|l1 l2 H|d1 d2 H|d1 d2 Hnd Hp] using same_content_ind.
  - reflexivity.
  - congruence.
  - cbn [Json.dumps]. do 3 f_equal.
    induction H as [|x y l1 l2 Hxy _ IH]; cbn; congruence.
  - cbn [Json.dumps]. do 5 f_equal.
    induction H as [|x y l1 l2 [Hk Hxy] _ IH]; cbn; congruence.
  - cbn [Json.dumps]. do 4 f_equal. apply sort_items_perm.
    + now rewrite <- list_fmap_compose.
    + now apply Permutation_map.
Qed.

(** C9: two blocks with the same content, whatever the order in which their
    fields (and those of their transactions) were inserted, have the same
    digest, a string of 64 lowercase hexadecimal digits. *)
Theorem hash_same_content (block1 block2 : dict) :
  same_content (PyDict block1) (PyDict block2) →
  hash block1 = hash block2 ∧
  String.length (hash block1) = 64%nat ∧
  Forall lower_hex (list_ascii_of_string (hash block1)).
Proof.
  intros H. unfold hash. cbv zeta. rewrite (dumps_same_content _ _ H).
  split; [reflexivity|]. split; [apply hexdigest_length | apply hexdigest_lower_hex].
Qed.

Lemma second_block_same_content :
  same_content (PyDict second_block) (PyDict second_block_reordered).
Proof.
  apply sc_trans with
    (v := PyDict [ ("index"%string, PyInt 2);
                   ("timestamp"%string, PyFloat "1700000060.25");
                   ("transactions"%string,
                     PyList [ PyDict [ ("amount"%string, PyInt 5);
                                       ("sender"%string, PyStr "A");
                                       ("recipient"%string, PyStr "B") ] ]);
                   ("proof"%string, PyInt 35293);
                   ("previous_hash"%string, PyStr (hash genesis_block)) ]).
  - apply sc_values. unfold second_block.
    do 2 (constructor; [split; [reflexivity | apply sc_refl] |]).
    constructor; [split; [reflexivity|] |].
    + apply sc_list. constructor; [|constructor].
      apply sc_order.
      * cbn. compute_done.
      * symmetry. apply (Permutation_cons_append [_; _]).
    + do 2 (constructor; [split; [reflexivity | apply sc_refl] |]). constructor.
  - apply sc_order.
    + cbn. compute_done.
    + unfold second_block_reordered.
      etransitivity; [|apply Permutation_sym, (Permutation_cons_append [_; _; _; _])].
      cbn [app]. do 2 apply perm_skip. apply perm_swap.
Qed.

Lemma hash_same_content_witness :
  hash second_block = hash second_block_reordered ∧
  String.length (hash second_block) = 64%nat ∧
  Forall lower_hex (list_ascii_of_string (hash second_block)).
Proof.
  exact (hash_same_content second_block second_block_reordered second_block_same_content).
Defined.

(** ** Consensus *)

(** One turn of the [for] loop. *)
Lemma scan_cons net node rest ml nc self :
  scan net (node :: rest) ml nc self =
  match net (chain_url node) with
  | None => (Raise ConnectionError, self)
  | Some r =>
      if status_code r =? 200 then
        if json_length r >? ml then
          match valid_chain_result (json_chain r) with
          | Return true => scan net rest (json_length r) (Some (json_chain r)) self
          | Return false => scan net rest ml nc self
          | Raise e => (Raise e, self)
          | Unmodelled => (Unmodelled, self)
          end
        else scan net rest ml nc self
      else scan net rest ml nc self
  end.
Proof.
  cbn [scan]. unfold bind, requests_get, valid_chain, lift, ret.
  destruct (net (chain_url node)) as [r|]; [|reflexivity].
  destruct (status_code r =? 200); [|reflexivity].
  destruct (json_length r >? ml); [|reflexivity].
  now destruct (valid_chain_result (json_chain r)) as [[|]| |].
Qed.

(** The loop reads the ledger and never writes it. *)
Lemma scan_state net order : ∀ ml nc self, snd (scan net order ml nc self) = self.
Proof.
  induction order as [|node rest IH]; intros ml nc self; [reflexivity|].
  rewrite scan_cons.
  destruct (net (chain_url node)) as [r|]; [|reflexivity].
  destruct (status_code r =? 200); [|apply IH].
  destruct (json_length r >? ml); [|apply IH].
  destruct (valid_chain_result (json_chain r)) as [[|]| |]; try apply IH; reflexivity.
Qed.

Lemma scan_app net pre post : ∀ ml nc self,
  scan net (pre ++ post) ml nc self =
  bind (scan net pre ml nc) (λ locals, scan net post (fst locals) (snd locals)) self.
Proof.
  induction pre as [|node rest IH]; intros ml nc self; [reflexivity|].
  cbn [app]. unfold bind in *. rewrite !scan_cons.
  destruct (net (chain_url node)) as [r|]; [|reflexivity].
  destruct (status_code r =? 200); [|apply IH].
  destruct (json_length r >? ml); [|apply IH].
  destruct (valid_chain_result (json_chain r)) as [[|]| |]; try apply IH; reflexivity.
Qed.

(** What the loop ends with, when it ends: the locals it started from, or a
    qualifying chain whose reported length is the final [max_length]; no
    qualifying peer reports more than the final [max_length]. *)
Lemma scan_result net n0 order : ∀ ml nc self ml' nc' self',
  scan net order ml nc self = (Return (ml', nc'), self') → n0 ≤ ml →
  ((ml' = ml ∧ nc' = nc) ∨
   (ml < ml' ∧ ∃ node ch, node ∈ order ∧ qualifies net n0 node ml' ch ∧ nc' = Some ch)) ∧
  (∀ node len ch, node ∈ order → qualifies net n0 node len ch → len ≤ ml ∨ len ≤ ml').
Proof.
  induction order as [|node rest IH]; intros ml nc self ml' nc' self' Hrun Hn0.
  - injection Hrun as <- <- <-. split; [now left|].
    intros node len ch Hin. now apply elem_of_nil in Hin.
  - rewrite scan_cons in Hrun.
    destruct (net (chain_url node)) as [r|] eqn:Hnet; [|discriminate].
    assert (Hskip : scan net rest ml nc self = (Return (ml', nc'), self') →
                    (∀ len ch, qualifies net n0 node len ch → len ≤ ml) →
      ((ml' = ml ∧ nc' = nc) ∨
       (ml < ml' ∧ ∃ node0 ch, node0 ∈ node :: rest ∧ qualifies net n0 node0 ml' ch ∧
                               nc' = Some ch)) ∧
      (∀ node0 len ch, node0 ∈ node :: rest → qualifies net n0 node0 len ch →
                       len ≤ ml ∨ len ≤ ml')).
    { intros Hrest Hnode. destruct (IH _ _ _ _ _ _ Hrest Hn0) as [Hres Hmax]. split.
      - destruct Hres as [?|(Hlt & node0 & ch & Hin & Hq & ->)]; [now left|].
        right. split; [assumption|]. exists node0, ch. split; [now right | now split].
      - intros node0 len ch Hin Hq. apply elem_of_cons in Hin as [-> | Hin].
        + left. eapply Hnode, Hq.
        + eapply Hmax; eassumption. }
    destruct (status_code r =? 200) eqn:Hst.
    2:{ apply Hskip; [assumption|]. intros len ch (r' & Hr' & Hs' & _).
        rewrite Hnet in Hr'. injection Hr' as <-. rewrite Hs' in Hst. discriminate. }
    destruct (json_length r >? ml) eqn:Hlen.
    2:{ apply Hskip; [assumption|]. intros len ch (r' & Hr' & _ & Hl' & _).
        rewrite Hnet in Hr'. injection Hr' as <-. lia. }
    destruct (valid_chain_result (json_chain r)) as [[|]| |] eqn:Hv; try discriminate.
    2:{ apply Hskip; [assumption|]. intros len ch (r' & Hr' & _ & _ & Hc' & _ & Hv').
        rewrite Hnet in Hr'. injection Hr' as <-. subst ch. rewrite Hv in Hv'. discriminate. }
    assert (Hq : qualifies net n0 node (json_length r) (json_chain r)).
    { exists r. apply Z.eqb_eq in Hst. repeat split; try assumption. lia. }
    destruct (IH _ _ _ _ _ _ Hrun ltac:(lia)) as [Hres Hmax]. split.
    + right. destruct Hres as [[-> ->]|(Hlt & node0 & ch & Hin & Hq0 & ->)].
      * split; [lia|]. exists node, (json_chain r). split; [now left | now split].
      * split; [lia|]. exists node0, ch. split; [now right | now split].
    + intros node0 len ch Hin Hq0. right.
      assert (json_length r ≤ ml') by (destruct Hres as [[-> _]|[? _]]; lia).
      apply elem_of_cons in Hin as [-> | Hin].
      * destruct Hq0 as (r' & Hr' & _ & Hl' & _).
        rewrite Hnet in Hr'. injection Hr' as <-. lia.
      * destruct (Hmax _ _ _ Hin Hq0); lia.
Qed.

(** A chain that passes [valid_chain] is not empty, hence truthy. *)
Lemma valid_chain_result_nonempty ch : valid_chain_result ch = Return true → ch ≠ [].
Proof. intros H ->. discriminate H. Qed.

Lemma valid_chain_result_total ch :
  ch ≠ [] → Forall is_block ch → ∃ b, valid_chain_result ch = Return b.
Proof.
  intros Hne Hall. destruct ch as [|first rest]; [contradiction|].
  destruct (valid_chain_loop_spec rest first Hall) as [[H _]|[H _]]; eauto.
Qed.

(** With peers that all answer, and answer 200 with blocks only, the loop ends. *)
Lemma scan_total net order : ∀ ml nc self,
  (∀ node, node ∈ order → well_behaved net node) →
  ∃ locals, scan net order ml nc self = (Return locals, self).
Proof.
  induction order as [|node rest IH]; intros ml nc self Hwb; [now eexists|].
  assert (Hrest : ∀ n, n ∈ rest → well_behaved net n) by (intros n Hn; apply Hwb; now right).
  rewrite scan_cons. destruct (Hwb node ltac:(now left)) as (r & -> & Hr).
  destruct (status_code r =? 200) eqn:Hst; [|now apply IH].
  destruct (json_length r >? ml); [|now apply IH].
  apply Z.eqb_eq in Hst. destruct (Hr Hst) as [Hne Hall].
  destruct (valid_chain_result_total _ Hne Hall) as [[|] ->]; now apply IH.
Qed.

(** [resolve_conflicts] in terms of its loop. *)
Lemma resolve_conflicts_unfold net order self :
  resolve_conflicts net order self =
  match fst (scan net order (Z.of_nat (length (chain self))) None self) with
  | Return locals =>
      if chain_truthy (snd locals)
      then (Return true,
            State (default [] (snd locals)) (current_transactions self) (nodes self))
      else (Return false, self)
  | Raise e => (Raise e, self)
  | Unmodelled => (Unmodelled, self)
  end.
Proof.
  unfold resolve_conflicts, bind, get.
  pose proof (scan_state net order (Z.of_nat (length (chain self))) None self) as Hs.
  destruct (scan net order _ None self) as [[locals|e|] s]; cbn in Hs; subst s; cbn [fst];
    try reflexivity.
  now destruct (chain_truthy (snd locals)).
Qed.

(** C1: when [resolve_conflicts] returns, it returns [True] exactly when some
    registered peer answers 200 with a chain that passes [valid_chain] and a
    reported length strictly above the local chain's length; the chain then
    held is such a peer's chain, and no qualifying peer reports a greater
    length; when it returns [False] the chain is the one held before.  With
    peers that all answer, and answer 200 with blocks only, it does return. *)
Theorem resolve_conflicts_longest_valid (net : network) (order : list string)
    (self : state) :
  iteration_of order (nodes self) →
  (∀ b self', resolve_conflicts net order self = (Return b, self') →
     (b = true ↔
      ∃ node len ch, node ∈ nodes self ∧
                     qualifies net (Z.of_nat (length (chain self))) node len ch) ∧
     (b = true →
      ∃ node len, node ∈ nodes self ∧
                  qualifies net (Z.of_nat (length (chain self))) node len (chain self') ∧
                  ∀ node' len' ch', node' ∈ nodes self →
                    qualifies net (Z.of_nat (length (chain self))) node' len' ch' →
                    len' ≤ len) ∧
     (b = false → chain self' = chain self)) ∧
  ((∀ node, node ∈ nodes self → well_behaved net node) →
   ∃ b self', resolve_conflicts net order self = (Return b, self')).
Proof.
  intros [_ Hmem]. split.
  - intros b self'. rewrite resolve_conflicts_unfold.
    destruct (scan net order _ None self) as [[[ml' nc']|e|] s] eqn:Hscan;
      cbn [fst snd]; try discriminate.
    destruct (scan_result net (Z.of_nat (length (chain self))) _ _ _ _ _ _ _ Hscan
                ltac:(lia)) as [Hres Hmax].
    destruct Hres as [[-> ->]|(Hlt & node & ch & Hin & Hq & ->)]; cbn [chain_truthy].
    + intros [= <- <-]. split; [|split; [discriminate | reflexivity]].
      split; [discriminate|]. intros (node & len & ch & Hin & Hq).
      apply Hmem in Hin. pose proof Hq as (_ & _ & _ & _ & _ & Hlen & _).
      destruct (Hmax _ _ _ Hin Hq); lia.
    + pose proof Hq as (_ & _ & _ & _ & _ & _ & Hv).
      apply valid_chain_result_nonempty in Hv. destruct ch as [|c0 ch]; [contradiction|].
      intros [= <- <-]. cbn [chain default]. split; [|split; [|discriminate]].
      * split; [|reflexivity]. intros _. exists node, ml', (c0 :: ch).
        split; [now apply Hmem | assumption].
      * intros _. exists node, ml'. split; [now apply Hmem|]. split; [assumption|].
        intros node' len' ch' Hin' Hq'. apply Hmem in Hin'.
        destruct (Hmax _ _ _ Hin' Hq'); lia.
  - intros Hwb. rewrite resolve_conflicts_unfold.
    destruct (scan_total net order (Z.of_nat (length (chain self))) None self)
      as [locals ->].
    + intros node Hin. now apply Hwb, Hmem.
    + cbn [fst]. destruct (chain_truthy (snd locals)); eauto.
Qed.

(** C8: whatever [resolve_conflicts] does (return or raise), the pending
    pool and the peer set are the ones held before; when it returns [False],
    or raises, the chain is the one held before too. *)
Theorem resolve_conflicts_frame (net : network) (order : list string) (self : state) :
  current_transactions (snd (resolve_conflicts net order self))
  = current_transactions self ∧
  nodes (snd (resolve_conflicts net order self)) = nodes self ∧
  (fst (resolve_conflicts net order self) = Return false →
   chain (snd (resolve_conflicts net order self)) = chain self) ∧
  (∀ e, fst (resolve_conflicts net order self) = Raise e →
        snd (resolve_conflicts net order self) = self).
Proof.
  rewrite resolve_conflicts_unfold.
  destruct (fst (scan net order _ None self)) as [locals|e|].
  - destruct (chain_truthy (snd locals)); cbn; repeat split; try discriminate; reflexivity.
  - cbn. repeat split; try discriminate; reflexivity.
  - cbn. repeat split; try discriminate; reflexivity.
Qed.

(** C2, as the code has it: a peer whose response is not a 200 is skipped
    and the scan goes on with the remaining peers as if that peer were not
    registered; a fetch that raises is not caught, and ends
    [resolve_conflicts] with that exception, the ledger unchanged. *)
Theorem resolve_conflicts_skips_non_200 (net : network) (pre post : list string)
    (node : string) (self : state) :
  (∀ r, net (chain_url node) = Some r → status_code r ≠ 200 →
        resolve_conflicts net (pre ++ node :: post) self
        = resolve_conflicts net (pre ++ post) self) ∧
  (net (chain_url node) = None →
   ∀ b self', resolve_conflicts net pre self = (Return b, self') →
              resolve_conflicts net (pre ++ node :: post) self
              = (Raise ConnectionError, self)).
Proof.
  split.
  - intros r Hnet Hst. rewrite !resolve_conflicts_unfold, !scan_app. unfold bind.
    destruct (scan net pre _ None self) as [[locals|e|] s]; try reflexivity.
    rewrite scan_cons, Hnet. apply Z.eqb_neq in Hst. now rewrite Hst.
  - intros Hnet b self'. rewrite !resolve_conflicts_unfold, scan_app. unfold bind.
    pose proof (scan_state net pre (Z.of_nat (length (chain self))) None self) as Hs.
    destruct (scan net pre _ None self) as [[locals|e|] s]; cbn in Hs; subst s;
      cbn [fst]; try discriminate.
    intros _. now rewrite scan_cons, Hnet.
Qed.

(** Registering a peer twice is registering it once. *)
Lemma register_node_idempotent netloc self :
  snd (register_node netloc (snd (register_node netloc self)))
  = snd (register_node netloc self).
Proof. cbn. f_equal. now rewrite (assoc_L (∪)), union_idemp_L. Qed.

(** A queued transfer joins the end of the pool; the call answers the index
    after the last block's. *)
Lemma new_transaction_fresh sender recipient amount :
  new_transaction sender recipient amount fresh
  = (Return (PyInt 2),
     State [genesis_block]
           [[("sender"%string, sender); ("recipient"%string, recipient);
             ("amount"%string, amount)]] ∅).
Proof. reflexivity. Qed.

(** ** The theorems at work on a small network *)

Lemma two_blocks_valid :
  valid_chain_result [genesis_block; second_block] = Return true.
Proof.
  cbn [valid_chain_result].
  destruct (valid_chain_loop_step genesis_block second_block
              genesis_is_block second_is_block) as [[_ Hstep]|[Hn _]].
  - now rewrite Hstep.
  - destruct Hn. exact genesis_second_linked.
Qed.

Lemma demo_order_iteration : iteration_of ["a:5000"; "b:5000"]%string (nodes demo_state).
Proof.
  split; [compute_done|]. intros n. cbn [nodes demo_state].
  rewrite elem_of_union, !elem_of_singleton, !elem_of_cons, elem_of_nil. tauto.
Qed.

Lemma resolve_conflicts_longest_valid_witness :
  iteration_of ["a:5000"; "b:5000"]%string (nodes demo_state) ∧
  ∃ self', resolve_conflicts demo_net ["a:5000"; "b:5000"]%string demo_state
           = (Return true, self') ∧
           chain self' = [genesis_block; second_block].
Proof.
  split; [exact demo_order_iteration|].
  destruct (resolve_conflicts_longest_valid demo_net _ demo_state demo_order_iteration)
    as [Hpart Htot].
  destruct Htot as (b & self' & Hrun).
  { intros node Hin. apply elem_of_union in Hin as [Hin | Hin];
      apply elem_of_singleton in Hin; subst node.
    - eexists. split; [reflexivity|]. intros _.
      split; [discriminate | exact two_blocks_are_blocks].
    - eexists. split; [reflexivity|]. intros _. split; [discriminate|].
      repeat constructor. exact genesis_is_block. }
  destruct (Hpart b self' Hrun) as (Hiff & Hkept & _).
  assert (b = true) as ->.
  { apply Hiff. exists "a:5000"%string, 2, [genesis_block; second_block].
    split; [apply elem_of_union_l; now apply elem_of_singleton|].
    eexists. split; [reflexivity|]. do 3 (split; [reflexivity|]).
    split; [reflexivity | exact two_blocks_valid]. }
  exists self'. split; [exact Hrun|].
  destruct (Hkept eq_refl) as (node & len & Hin & (r & Hr & _ & Hlen & Hch & Hlt & _) & _).
  apply elem_of_union in Hin as [Hin | Hin]; apply elem_of_singleton in Hin; subst node.
  - injection Hr as <-. symmetry. exact Hch.
  - injection Hr as <-. cbn in Hlen, Hlt. lia.
Defined.

Lemma resolve_conflicts_skips_non_200_witness :
  resolve_conflicts not_found_net ("a:5000" :: ["b:5000"])%string demo_state
  = resolve_conflicts not_found_net ["b:5000"]%string demo_state.
Proof.
  exact (proj1 (resolve_conflicts_skips_non_200 not_found_net [] ["b:5000"%string]
                  "a:5000" demo_state)
               (Response 404 0 []) eq_refl ltac:(discriminate)).
Defined.

(** One unreachable peer ends the whole resolution, although the next peer
    holds a longer valid chain. *)
Lemma unreachable_peer_aborts_resolution :
  down_net (chain_url "a:5000") = None ∧
  qualifies down_net (Z.of_nat (length (chain demo_state))) "b:5000" 2
            [genesis_block; second_block] ∧
  resolve_conflicts down_net ["a:5000"; "b:5000"]%string demo_state
  = (Raise ConnectionError, demo_state).
Proof.
  split; [reflexivity|]. split.
  - eexists. split; [reflexivity|]. do 3 (split; [reflexivity|]).
    split; [reflexivity | exact two_blocks_valid].
  - rewrite resolve_conflicts_unfold, scan_cons. reflexivity.
Qed.

(** ** Test vectors *)

Example sha256_empty :
  SHA256.hexdigest []
  = "e3b0c44298fc1c149afbf4c8996fb92427ae41e4649b934ca495991b7852b855"%string.
Proof. vm_compute. reflexivity. Qed.

Example sha256_abc :
  SHA256.hexdigest (list_byte_of_string "abc")
  = "ba7816bf8f01cfea414140de5dae2223b00361a396177a9cb410ff61f20015ad"%string.
Proof. vm_compute. reflexivity. Qed.

Example sha256_two_blocks :
  SHA256.hexdigest
    (list_byte_of_string "abcdbcdecdefdefgefghfghighijhijkijkljklmklmnlmnomnopnopq")
  = "248d6a61d20638b8e5c026930c3e6039a33ce45964ff2167f6ecedd419db06c1"%string.
Proof. vm_compute. reflexivity. Qed.

Example hash_genesis_block :
  hash genesis_block
  = "34e9b643e6d862c44dc8ecb6771d9988000143a71c54d8939eec051706e03b13"%string.
Proof. vm_compute. reflexivity. Qed.

Example hash_second_block :
  hash second_block
  = "65d8469b531f74b1ab90f4bb38e96d579ef4dd44a2239eafaf95df59fe9b9772"%string.
Proof. vm_compute. reflexivity. Qed.

Example proof_of_work_88 : proof_of_work 1000 88 = Some 484.
Proof. vm_compute. reflexivity. Qed.

(** * Further properties: the rest of the class and the routes *)

(** ** Reading values that differ only by the order of their fields *)

Lemma same_outcome_refl o : same_outcome o o.
Proof. destruct o; cbn; [apply sc_refl | reflexivity | exact I]. Qed.

Lemma same_outcome_trans o1 o2 o3 :
  same_outcome o1 o2 → same_outcome o2 o3 → same_outcome o1 o3.
Proof.
  destruct o1, o2, o3; cbn; try tauto; try congruence. apply sc_trans.
Qed.

Lemma Forall2_same_content_refl l : Forall2 same_content l l.
Proof. induction l; constructor; [apply sc_refl | assumption]. Qed.

Lemma content_shape_refl u : content_shape u u.
Proof.
  destruct u; cbn; try reflexivity.
  - eexists. split; [reflexivity | apply Forall2_same_content_refl].
  - eexists. split; [reflexivity|]. intros k. apply same_outcome_refl.
Qed.

(** With distinct keys, a lookup does not depend on the order of the items. *)
Lemma getitem_perm (d1 d2 : dict) k :
  NoDup d1.*1 → Permutation d1 d2 → getitem d1 k = getitem d2 k.
Proof.
  intros Hnd Hp. induction Hp as [|x l1 l2 Hp IH|x y l|l1 l2 l3 Hp1 IH1 Hp2 IH2].
  - reflexivity.
  - destruct x as [kx vx]. cbn in *. apply NoDup_cons in Hnd as [_ Hnd].
    now rewrite IH.
  - destruct x as [kx vx], y as [ky vy]. cbn in *.
    apply NoDup_cons in Hnd as [Hy _].
    destruct (String.eqb_spec ky k) as [->|]; [|reflexivity].
    destruct (String.eqb_spec kx k) as [->|]; [|reflexivity].
    destruct Hy. now left.
  - rewrite IH1 by assumption. apply IH2. now rewrite <- Hp1.
Qed.

Lemma same_content_shape u v : same_content u v → content_shape u v.
Proof.
  intros H. enough (same_content u v ∧ content_shape u v) by tauto.
  induction H as [v|u v w [S1 C1] [S2 C2]|l1 l2 H|d1 d2 H|d1 d2 Hnd Hp]
    using same_content_ind.
  - split; [apply sc_refl | apply content_shape_refl].
  - split; [now apply sc_trans with v|].
    destruct u; cbn in C1 |- *; try (subst v; exact C2).
    + destruct C1 as (l2 & -> & F1). destruct C2 as (l3 & -> & F2).
      exists l3. split; [reflexivity|].
      clear S1 S2. revert l3 F2. induction F1 as [|x y l1 l2 Hxy _ IH]; intros l3 F2.
      * inversion F2. constructor.
      * inversion F2 as [|y' z l2' l3' Hyz F2']; subst. constructor.
        -- now apply sc_trans with y.
        -- now apply IH.
    + destruct C1 as (d2 & -> & F1). destruct C2 as (d3 & -> & F2).
      exists d3. split; [reflexivity|]. intros k.
      eapply same_outcome_trans; [apply F1 | apply F2].
  - assert (Forall2 same_content l1 l2) as F
      by (induction H as [|x y l1 l2 [Hxy _] _ IH]; constructor; assumption).
    split; [now apply sc_list|]. cbn. now exists l2.
  - assert (Forall2 (λ x y, x.1 = y.1 ∧ same_content x.2 y.2) d1 d2) as F
      by (induction H as [|x y l1 l2 [Hk [Hxy _]] _ IH]; constructor; [split|]; assumption).
    split; [now apply sc_values|]. cbn. exists d2. split; [reflexivity|].
    intros k. clear H. induction F as [|[k1 v1] [k2 v2] l1 l2 [Hk Hv] _ IH].
    + cbn. reflexivity.
    + cbn in Hk, Hv |- *. subst k2. now destruct (String.eqb k1 k).
  - split; [now apply sc_order|]. cbn. exists d2. split; [reflexivity|].
    intros k. rewrite (getitem_perm d1 d2 k Hnd Hp). apply same_outcome_refl.
Qed.

Lemma getitem_same_block a b k :
  same_block a b → same_outcome (getitem a k) (getitem b k).
Proof.
  intros H. apply same_content_shape in H as (d2 & [= <-] & H). apply H.
Qed.

Lemma hash_same_block a b : same_block a b → hash a = hash b.
Proof. intros H. unfold hash. cbv zeta. now rewrite (dumps_same_content _ _ H). Qed.

Lemma ne_str_same_content v1 v2 s : same_content v1 v2 → ne_str v1 s = ne_str v2 s.
Proof.
  intros H. apply same_content_shape in H.
  destruct v1; cbn in H; try (subst v2; reflexivity).
  - now destruct H as (? & -> & _).
  - now destruct H as (? & -> & _).
Qed.

Lemma as_int_same_content v1 v2 : same_content v1 v2 → as_int v1 = as_int v2.
Proof.
  intros H. apply same_content_shape in H.
  destruct v1; cbn in H; try (subst v2; reflexivity).
  - now destruct H as (? & -> & _).
  - now destruct H as (? & -> & _).
Qed.

Lemma valid_chain_loop_same_block rest1 rest2 :
  Forall2 same_block rest1 rest2 →
  ∀ prev1 prev2, same_block prev1 prev2 →
                 valid_chain_loop prev1 rest1 = valid_chain_loop prev2 rest2.
Proof.
  induction 1 as [|b1 b2 rest1 rest2 Hb _ IH]; intros prev1 prev2 Hprev; [reflexivity|].
  cbn [valid_chain_loop].
  pose proof (getitem_same_block b1 b2 "previous_hash" Hb) as Hph.
  destruct (getitem b1 "previous_hash") as [ph1|e1|],
           (getitem b2 "previous_hash") as [ph2|e2|]; cbn in Hph; try contradiction;
    cbn [obind]; [|now subst|reflexivity].
  rewrite (ne_str_same_content _ _ (hash prev1) Hph), (hash_same_block _ _ Hprev).
  destruct (ne_str ph2 (hash prev2)); [reflexivity|].
  pose proof (getitem_same_block prev1 prev2 "proof" Hprev) as Hlp.
  destruct (getitem prev1 "proof") as [lp1|e1|],
           (getitem prev2 "proof") as [lp2|e2|]; cbn in Hlp; try contradiction;
    cbn [obind]; [|now subst|reflexivity].
  pose proof (getitem_same_block b1 b2 "proof" Hb) as Hp.
  destruct (getitem b1 "proof") as [p1|e1|],
           (getitem b2 "proof") as [p2|e2|]; cbn in Hp; try contradiction;
    cbn [obind]; [|now subst|reflexivity].
  rewrite (as_int_same_content _ _ Hlp), (as_int_same_content _ _ Hp).
  destruct (as_int lp2) as [lp| |]; cbn [obind]; try reflexivity.
  destruct (as_int p2) as [p| |]; cbn [obind]; try reflexivity.
  destruct (negb (valid_proof lp p)); [reflexivity|]. now apply IH.
Qed.

Lemma valid_chain_result_same_block c1 c2 :
  Forall2 same_block c1 c2 → valid_chain_result c1 = valid_chain_result c2.
Proof.
  intros H. destruct H as [|b1 b2 rest1 rest2 Hb H]; [reflexivity|].
  cbn [valid_chain_result]. now apply valid_chain_loop_same_block.
Qed.

(** X1: the verdict of [valid_chain], exception included, is the same on two
    chains whose blocks have the same content, whatever the order of the
    fields in each block. *)
Theorem valid_chain_same_content (c1 c2 : list dict) (self : state) :
  Forall2 same_block c1 c2 → valid_chain c1 self = valid_chain c2 self.
Proof.
  intros H. unfold valid_chain, lift. f_equal. now apply valid_chain_result_same_block.
Qed.

Lemma valid_chain_same_content_witness :
  Forall2 same_block [genesis_block; second_block] [genesis_block; second_block_reordered] ∧
  valid_chain [genesis_block; second_block] fresh
  = valid_chain [genesis_block; second_block_reordered] fresh.
Proof.
  assert (Forall2 same_block [genesis_block; second_block]
                             [genesis_block; second_block_reordered]) as H.
  { constructor; [apply sc_refl|]. constructor; [|constructor].
    exact second_block_same_content. }
  split; [exact H|]. exact (valid_chain_same_content _ _ fresh H).
Defined.

(** ** Consensus between nodes that run this program *)

Lemma Forall2_map_PyDict c1 c2 :
  Forall2 same_content (map PyDict c1) (map PyDict c2) → Forall2 same_block c1 c2.
Proof.
  revert c2. induction c1 as [|a c1 IH]; intros [|b c2] H; inversion H; subst;
    constructor; [assumption | now apply IH].
Qed.

(** What is received from a peer that runs [full_chain]: status 200, the
    true length of its chain, and its blocks up to the order of their fields. *)
Lemma serves_inv net node peer :
  serves net node peer →
  ∃ r, net (chain_url node) = Some r ∧ status_code r = 200 ∧
       json_length r = Z.of_nat (length (chain peer)) ∧
       Forall2 same_block (chain peer) (json_chain r).
Proof.
  intros (r & body & Hnet & Hrun & Hsame). cbn in Hrun. injection Hrun as <- Hst.
  exists r. split; [assumption|]. split; [now symmetry|].
  apply same_content_shape in Hsame as (d2 & [= <-] & Hkeys). split.
  - specialize (Hkeys "length"%string). cbn in Hkeys.
    apply same_content_shape in Hkeys. cbn in Hkeys. now injection Hkeys.
  - specialize (Hkeys "chain"%string). cbn in Hkeys.
    apply same_content_shape in Hkeys as (l2 & [= <-] & F).
    now apply Forall2_map_PyDict.
Qed.

(** X2: when every peer that answers 200 is running [full_chain] on some
    ledger, a consensus round that returns [True] leaves a chain strictly
    longer than the one held before; that chain is, up to the order of
    fields, the valid chain of one of those ledgers, and none of them holds a
    longer valid chain. *)
Theorem resolve_conflicts_honest_peers (net : network) (order : list string)
    (self self' : state) :
  (∀ node r, node ∈ order → net (chain_url node) = Some r → status_code r = 200 →
             ∃ peer, serves net node peer) →
  resolve_conflicts net order self = (Return true, self') →
  (length (chain self) < length (chain self'))%nat ∧
  ∃ node peer,
    node ∈ order ∧ serves net node peer ∧
    Forall2 same_block (chain peer) (chain self') ∧
    valid_chain_result (chain peer) = Return true ∧
    ∀ node' peer', node' ∈ order → serves net node' peer' →
                   valid_chain_result (chain peer') = Return true →
                   (length (chain peer') ≤ length (chain peer))%nat.
Proof.
  intros Hhonest. rewrite resolve_conflicts_unfold.
  destruct (scan net order _ None self) as [[[ml' nc']|e|] s] eqn:Hscan;
    cbn [fst snd]; try discriminate.
  destruct (scan_result net (Z.of_nat (length (chain self))) _ _ _ _ _ _ _ Hscan
              ltac:(lia)) as [Hres Hmax].
  destruct Hres as [[-> ->]|(Hlt & node & ch & Hin & Hq & ->)];
    cbn [chain_truthy]; [discriminate|].
  pose proof Hq as (r & Hr & Hst & Hlen & Hch & _ & Hv).
  pose proof (valid_chain_result_nonempty _ Hv) as Hne.
  destruct ch as [|c0 ch]; [contradiction|]. intros [= <-]. cbn [chain default].
  destruct (Hhonest node r Hin Hr Hst) as [peer Hserves].
  pose proof (serves_inv _ _ _ Hserves) as (r' & Hr' & _ & Hlen' & F).
  rewrite Hr in Hr'. injection Hr' as <-. rewrite Hch in F.
  pose proof (Forall2_length _ _ _ F) as Hl. split; [lia|].
  exists node, peer. split; [assumption|]. split; [assumption|]. split; [assumption|].
  split; [now rewrite (valid_chain_result_same_block _ _ F)|].
  intros node' peer' Hin' Hserves' Hv'.
  pose proof (serves_inv _ _ _ Hserves') as (r' & Hr' & Hst' & Hlen'' & F').
  destruct (Z_lt_le_dec (Z.of_nat (length (chain self))) (json_length r')) as [Hbig|]; [|lia].
  assert (qualifies net (Z.of_nat (length (chain self))) node' (json_length r') (json_chain r'))
    as Hq'.
  { exists r'. repeat (split; [first [assumption | reflexivity]|]).
    now rewrite <- (valid_chain_result_same_block _ _ F'). }
  destruct (Hmax _ _ _ Hin' Hq'); lia.
Qed.

(** X3: [resolve_conflicts] compares the length a peer reports, never the
    length of the chain it sends: a single peer that answers 200 with a
    reported length above the local length and any chain that passes
    [valid_chain] has that chain adopted, however short it is. *)
Theorem resolve_conflicts_trusts_reported_length (net : network) (node : string)
    (self : state) (r : response) :
  net (chain_url node) = Some r → status_code r = 200 →
  Z.of_nat (length (chain self)) < json_length r →
  valid_chain_result (json_chain r) = Return true →
  resolve_conflicts net [node] self
  = (Return true, State (json_chain r) (current_transactions self) (nodes self)).
Proof.
  intros Hnet Hst Hlen Hv. rewrite resolve_conflicts_unfold, scan_cons, Hnet, Hst.
  cbn [Z.eqb Pos.eqb]. apply Z.gtb_lt in Hlen. rewrite Hlen, Hv. cbn [scan ret fst snd].
  apply valid_chain_result_nonempty in Hv.
  destruct (json_chain r) as [|c0 ch]; [contradiction|]. reflexivity.
Qed.

(** X4: an exception raised by [valid_chain] on a fetched chain is not
    caught: a first peer that answers 200 with a reported length above the
    local length and a chain on which [valid_chain] raises (the empty list, a
    block without ['previous_hash']) ends the round with that exception and
    the ledger unchanged, the other peers unread. *)
Theorem resolve_conflicts_raises_on_bad_chain (net : network) (node : string)
    (rest : list string) (self : state) (r : response) (e : exn) :
  net (chain_url node) = Some r → status_code r = 200 →
  Z.of_nat (length (chain self)) < json_length r →
  valid_chain_result (json_chain r) = Raise e →
  resolve_conflicts net (node :: rest) self = (Raise e, self).
Proof.
  intros Hnet Hst Hlen Hv. rewrite resolve_conflicts_unfold, scan_cons, Hnet, Hst.
  cbn [Z.eqb Pos.eqb]. apply Z.gtb_lt in Hlen. now rewrite Hlen, Hv.
Qed.

Lemma demo_resolution :
  resolve_conflicts demo_net ["a:5000"; "b:5000"]%string demo_state
  = (Return true, State [genesis_block; second_block] some_pool (nodes demo_state)).
Proof.
  rewrite resolve_conflicts_unfold, scan_cons.
  change (demo_net (chain_url "a:5000"))
    with (Some (Response 200 2 [genesis_block; second_block])).
  cbn [status_code json_length json_chain].
  change (200 =? 200) with true.
  change (2 >? Z.of_nat (length (chain demo_state))) with true. cbv iota.
  rewrite two_blocks_valid, scan_cons.
  change (demo_net (chain_url "b:5000")) with (Some (Response 200 1 [genesis_block])).
  reflexivity.
Qed.

Lemma demo_peers_serve node r :
  node ∈ ["a:5000"; "b:5000"]%string → demo_net (chain_url node) = Some r →
  status_code r = 200 → ∃ peer, serves demo_net node peer.
Proof.
  intros Hin _ _. apply elem_of_cons in Hin as [-> | Hin];
    [|apply elem_of_cons in Hin as [-> | Hin]; [|now apply elem_of_nil in Hin]].
  - exists (State [genesis_block; second_block] [] ∅).
    eexists. eexists. split; [reflexivity|]. split; [reflexivity | apply sc_refl].
  - exists (State [genesis_block] [] ∅).
    eexists. eexists. split; [reflexivity|]. split; [reflexivity | apply sc_refl].
Qed.

Lemma resolve_conflicts_honest_peers_witness :
  resolve_conflicts demo_net ["a:5000"; "b:5000"]%string demo_state
  = (Return true, State [genesis_block; second_block] some_pool (nodes demo_state)) ∧
  (length (chain demo_state) < length [genesis_block; second_block])%nat.
Proof.
  split; [exact demo_resolution|].
  exact (proj1 (resolve_conflicts_honest_peers demo_net _ demo_state _
                  demo_peers_serve demo_resolution)).
Defined.

Lemma resolve_conflicts_trusts_reported_length_witness :
  (Z.of_nat (length (chain two_block_state)) < 3 ∧
   valid_chain_result [genesis_block] = Return true) ∧
  resolve_conflicts liar_net ["a:5000"%string] two_block_state
  = (Return true, State [genesis_block] some_pool ∅).
Proof.
  split; [split; reflexivity|].
  exact (resolve_conflicts_trusts_reported_length liar_net "a:5000" two_block_state
           (Response 200 3 [genesis_block]) eq_refl eq_refl eq_refl eq_refl).
Defined.

Lemma resolve_conflicts_raises_on_bad_chain_witness :
  valid_chain_result [] = Raise IndexError ∧
  resolve_conflicts empty_chain_net ["a:5000"; "b:5000"]%string fresh
  = (Raise IndexError, fresh).
Proof.
  split; [reflexivity|].
  exact (resolve_conflicts_raises_on_bad_chain empty_chain_net "a:5000" ["b:5000"%string]
           fresh (Response 200 5 []) IndexError eq_refl eq_refl eq_refl eq_refl).
Defined.

(** ** Queuing transactions *)

(** [new_transaction] in one step: the transaction is appended first, then
    the answer is computed from the last block. *)
Lemma new_transaction_run sender recipient amount self :
  new_transaction sender recipient amount self =
  (match last (chain self) with
   | None => Raise IndexError
   | Some b => obind (getitem b "index") add_one
   end,
   State (chain self)
         (current_transactions self
          ++ [[ ("sender"%string, sender); ("recipient"%string, recipient);
                ("amount"%string, amount) ]])
         (nodes self)).
Proof.
  unfold new_transaction, bind, get, put, last_block, lift, ret. cbn.
  destruct (last (chain self)) as [b|]; [|reflexivity].
  destruct (getitem b "index") as [i| |]; reflexivity.
Qed.

(** X5: [new_transaction] appends exactly the given transfer to the end of
    the pending pool and touches neither the chain nor the peers, whatever
    its outcome: with an empty chain it raises [IndexError] and with a last
    block that has no ['index'] it raises [KeyError], but the transfer has
    been queued all the same.  Its answer is the last block's index plus one. *)
Theorem new_transaction_queues_before_answering (sender recipient amount : pyval)
    (self : state) :
  snd (new_transaction sender recipient amount self)
  = State (chain self)
          (current_transactions self
           ++ [[ ("sender"%string, sender); ("recipient"%string, recipient);
                 ("amount"%string, amount) ]])
          (nodes self) ∧
  (chain self = [] →
   fst (new_transaction sender recipient amount self) = Raise IndexError) ∧
  (∀ b, last (chain self) = Some b → getitem b "index" = Raise (KeyError "index") →
        fst (new_transaction sender recipient amount self) = Raise (KeyError "index")) ∧
  (∀ b i, last (chain self) = Some b → getitem b "index" = Return (PyInt i) →
          fst (new_transaction sender recipient amount self) = Return (PyInt (i + 1))).
Proof.
  rewrite new_transaction_run. cbn [fst snd]. split; [reflexivity|]. split; [|split].
  - now intros ->.
  - intros b -> H. now rewrite H.
  - intros b i -> H. now rewrite H.
Qed.

Lemma existsb_getitem (d : dict) k :
  existsb (λ kv, String.eqb kv.1 k) d
  = match getitem d k with Return _ => true | _ => false end.
Proof.
  induction d as [|[k' v] d IH]; [reflexivity|].
  cbn. now destruct (String.eqb k' k).
Qed.

(** X6: the route [/transactions/new] accepts a JSON object that has the
    three keys, whatever else it holds: their three values, and nothing else,
    are queued as one transfer at the end of the pool, and when the last
    block has an integer index [i] the reply is 201 with the message naming
    block [i + 1]. *)
Theorem route_new_transaction_accepts (d : dict) (a b c : pyval) (self : state) :
  getitem d "sender" = Return a → getitem d "recipient" = Return b →
  getitem d "amount" = Return c →
  snd (App.new_transaction (PyDict d) self)
  = State (chain self)
          (current_transactions self
           ++ [[ ("sender"%string, a); ("recipient"%string, b); ("amount"%string, c) ]])
          (nodes self) ∧
  ∀ blk i, last (chain self) = Some blk → getitem blk "index" = Return (PyInt i) →
           fst (App.new_transaction (PyDict d) self)
           = Return (PyDict [("message"%string,
                              PyStr ("Transaction will be added to Block "
                                     +:+ str_int (i + 1)))], 201).
Proof.
  intros Ha Hb Hc. unfold App.new_transaction, bind, lift.
  cbn [App.all_in App.contains obind App.subscript].
  rewrite !existsb_getitem, Ha, Hb, Hc. cbn [negb]. rewrite new_transaction_run.
  destruct (last (chain self)) as [blk|].
  - split.
    + destruct (getitem blk "index") as [v| |]; cbn [obind]; try reflexivity.
      destruct v as [|[|]| | | | |]; reflexivity.
    + intros blk' i [= <-] Hi. now rewrite Hi.
  - split; [reflexivity | discriminate].
Qed.

Lemma route_new_transaction_accepts_witness :
  snd (App.new_transaction
         (PyDict [ ("amount"%string, PyInt 3); ("note"%string, PyStr "x");
                   ("recipient"%string, PyStr "B"); ("sender"%string, PyStr "A") ])
         fresh)
  = State [genesis_block]
          [[ ("sender"%string, PyStr "A"); ("recipient"%string, PyStr "B");
             ("amount"%string, PyInt 3) ]] ∅.
Proof.
  exact (proj1 (route_new_transaction_accepts
                  [ ("amount"%string, PyInt 3); ("note"%string, PyStr "x");
                    ("recipient"%string, PyStr "B"); ("sender"%string, PyStr "A") ]
                  (PyStr "A") (PyStr "B") (PyInt 3) fresh eq_refl eq_refl eq_refl)).
Defined.

(** X7: the route [/transactions/new] queues nothing unless the body is a
    JSON object with the three keys: an object that lacks one of them is
    answered 400 "Missing values", and any other body either that or a
    [TypeError]; the ledger is left as it was. *)
Theorem route_new_transaction_rejects (values : pyval) (self : state) :
  (∀ d, values = PyDict d →
        ∃ k, k ∈ ["sender"; "recipient"; "amount"]%string ∧
             getitem d k = Raise (KeyError k)) →
  snd (App.new_transaction values self) = self ∧
  (fst (App.new_transaction values self) = Return (PyStr "Missing values", 400) ∨
   fst (App.new_transaction values self) = Raise TypeError) ∧
  (∀ d, values = PyDict d →
        fst (App.new_transaction values self) = Return (PyStr "Missing values", 400)).
Proof.
  intros Hmiss. unfold App.new_transaction, bind, lift.
  destruct values as [| | | |s|l|d]; cbn [App.all_in App.contains obind App.subscript];
    try (split; [reflexivity|]; split; [now right | discriminate]).
  - repeat match goal with
           | |- context [String.index 0 ?k s] => destruct (String.index 0 k s)
           end; cbn; (split; [reflexivity|]; split; [tauto | discriminate]).
  - repeat match goal with
           | |- context [existsb ?f l] => destruct (existsb f l)
           end; cbn; (split; [reflexivity|]; split; [tauto | discriminate]).
  - rewrite !existsb_getitem.
    destruct (Hmiss d eq_refl) as (k & Hk & Hget).
    assert (k = "sender" ∨ k = "recipient" ∨ k = "amount")%string as Hcases.
    { rewrite !elem_of_cons, elem_of_nil in Hk. tauto. }
    destruct Hcases as [-> | [-> | ->]]; rewrite Hget;
      repeat match goal with
             | |- context [getitem d ?k] => destruct (getitem d k)
             end; cbn; (split; [reflexivity|]; split; [now left | reflexivity]).
Qed.

Lemma route_new_transaction_rejects_witness :
  App.new_transaction
    (PyDict [ ("sender"%string, PyStr "A"); ("amount"%string, PyInt 3) ]) demo_state
  = (Return (PyStr "Missing values", 400), demo_state).
Proof.
  pose proof (route_new_transaction_rejects
                (PyDict [ ("sender"%string, PyStr "A"); ("amount"%string, PyInt 3) ])
                demo_state) as H.
  destruct H as (Hs & _ & Hf).
  { intros d [= <-]. exists "recipient"%string. split; [|reflexivity].
    rewrite !elem_of_cons. tauto. }
  rewrite (surjective_pairing (App.new_transaction _ _)), Hs, (Hf _ eq_refl).
  reflexivity.
Defined.

(** ** Minting and mining *)














(** ** The chain a node holds *)







(** X11: the peer set is a set: registering a peer again changes nothing,
    the order in which two peers are registered does not matter, and
    registering touches neither the chain nor the pending pool. *)
Theorem register_node_set (a b : string) (self : state) :
  snd (register_node a (snd (register_node a self))) = snd (register_node a self) ∧
  snd (register_node a (snd (register_node b self)))
  = snd (register_node b (snd (register_node a self))) ∧
  a ∈ nodes (snd (register_node a self)) ∧
  nodes self ⊆ nodes (snd (register_node a self)) ∧
  chain (snd (register_node a self)) = chain self ∧
  current_transactions (snd (register_node a self)) = current_transactions self.
Proof.
  cbn. split; [|split; [|split; [|split; [|split]]]]; try reflexivity.
  - f_equal. now rewrite (assoc_L (∪)), union_idemp_L.
  - f_equal. rewrite !(assoc_L (∪)). f_equal. apply (comm_L (∪)).
  - apply elem_of_union_l. now apply elem_of_singleton.
  - apply union_subseteq_r.
Qed.
